(** * Chess CLI over a Stockfish engine session ([main.py])

    A shallow embedding of the command loop of [main.py] and of the
    helper functions it is built from ([show_board], [apply_move_uci],
    [undo_last_halfmove], [engine_reply], [help_text], [main]).

    The [stockfish] Python package is an external dependency: the engine
    object is an interface ([Engine]) whose methods thread the engine's
    hidden state and may raise.  The contract of that package that the
    synchronisation invariant relies on is the class [ChessEngine].

    A Python [str] is modelled by its UTF-8 encoding.  [str.strip] is
    defined over the characters of that encoding, with the white space of
    Unicode; [str.lower] is a parameter ([Text.PyStr]) with the
    properties of Python's lower-casing that the program relies on. *)

From Stdlib Require Import Bool Arith ZArith List Ascii String Lia.
From Stdlib Require Import DecimalString.
Import ListNotations.
Open Scope string_scope.

Set Implicit Arguments.

(** ** Python values and exceptions *)

(** The exceptions the program can meet.  [KeyboardInterrupt] derives from
    [BaseException] only, so an [except Exception] clause lets it through. *)
Inductive exn : Type :=
| RuntimeError
| ValueError
| StockfishException
| EOFError
| KeyboardInterrupt.

Definition is_Exception (x : exn) : bool :=
  match x with
  | KeyboardInterrupt => false
  | _ => true
  end.

Inductive outcome (A : Type) : Type :=
| Ok (a : A)
| Raise (x : exn).
Arguments Ok {A} a.
Arguments Raise {A} x.

(** The dictionary returned by [get_evaluation]:
    [{'type': 'cp'|'mate', 'value': int}]. *)
Inductive eval_type : Type := cp | mate.

Record evaluation : Type := { ev_type : eval_type; ev_value : Z }.

Definition nl : string := String (ascii_of_nat 10) EmptyString.

Definition repr_int (z : Z) : string := NilEmpty.string_of_int (Z.to_int z).

Definition repr_evaluation (ev : evaluation) : string :=
  "{'type': '" ++ (match ev_type ev with cp => "cp" | mate => "mate" end)
  ++ "', 'value': " ++ repr_int (ev_value ev) ++ "}".

(** Truth value of a [str | None]: [None] and the empty string are false. *)
Definition truthy (o : option string) : bool :=
  match o with
  | Some s => negb (s =? "")
  | None => false
  end.

(** [x or default] on a [str | None]. *)
Definition or_default (o : option string) (d : string) : string :=
  match o with
  | Some s => if s =? "" then d else s
  | None => d
  end.

(** ** Normalisation of an input line *)

Module Text.

(** A byte of the form 10xxxxxx: it continues a character. *)
Definition is_continuation (c : ascii) : bool :=
  let n := nat_of_ascii c in ((128 <=? n) && (n <=? 191))%nat.

Definition starts_with_continuation (s : string) : bool :=
  match s with
  | EmptyString => false
  | String c _ => is_continuation c
  end.

(** The characters of a text: every byte with the continuation bytes
    that follow it. *)
Fixpoint chars (s : string) : list string :=
  match s with
  | EmptyString => []
  | String c s' =>
      match chars s' with
      | ch :: rest =>
          if starts_with_continuation ch then String c ch :: rest
          else String c EmptyString :: ch :: rest
      | [] => [String c EmptyString]
      end
  end.

(** Putting the characters together again. *)
Fixpoint join (l : list string) : string :=
  match l with
  | [] => EmptyString
  | ch :: rest => ch ++ join rest
  end.

Fixpoint bytes (l : list nat) : string :=
  match l with
  | [] => EmptyString
  | n :: rest => String (ascii_of_nat n) (bytes rest)
  end.

(** The characters [str.strip()] removes, the white space of Unicode:
    U+0009-000D, U+001C-0020, U+0085, U+00A0, U+1680, U+2000-200A,
    U+2028, U+2029, U+202F, U+205F and U+3000, in UTF-8. *)
Definition spaces : list string :=
  map bytes
    [[9]; [10]; [11]; [12]; [13]; [28]; [29]; [30]; [31]; [32];
     [194; 133]; [194; 160]; [225; 154; 128];
     [226; 128; 128]; [226; 128; 129]; [226; 128; 130]; [226; 128; 131];
     [226; 128; 132]; [226; 128; 133]; [226; 128; 134]; [226; 128; 135];
     [226; 128; 136]; [226; 128; 137]; [226; 128; 138];
     [226; 128; 168]; [226; 128; 169]; [226; 128; 175];
     [226; 129; 159]; [227; 128; 128]]%nat.

Definition is_space (ch : string) : bool := existsb (String.eqb ch) spaces.

Fixpoint lstrip (l : list string) : list string :=
  match l with
  | [] => []
  | ch :: l' => if is_space ch then lstrip l' else l
  end.

Fixpoint rstrip (l : list string) : list string :=
  match l with
  | [] => []
  | ch :: l' =>
      match rstrip l' with
      | [] => if is_space ch then [] else [ch]
      | r => ch :: r
      end
  end.

(** [s.strip()] *)
Definition strip (s : string) : string := join (rstrip (lstrip (chars s))).

(** Lower-casing on ASCII: A-Z to a-z. *)
Definition lower_ascii_char (c : ascii) : ascii :=
  let n := nat_of_ascii c in
  if ((65 <=? n) && (n <=? 90))%nat then ascii_of_nat (n + 32) else c.

Fixpoint lower_ascii (s : string) : string :=
  match s with
  | EmptyString => EmptyString
  | String c s' => String (lower_ascii_char c) (lower_ascii s')
  end.

Fixpoint is_ascii (s : string) : bool :=
  match s with
  | EmptyString => true
  | String c s' => (nat_of_ascii c <? 128)%nat && is_ascii s'
  end.

(** [str.lower] and what the program needs of it: lower-casing twice is
    lower-casing once, it commutes with stripping (white space has no
    case and no letter becomes white space), on ASCII text it maps A-Z
    to a-z, and it deletes nothing. *)
Class PyStr : Type := {
  str_lower : string -> string;
  str_lower_idem : forall s, str_lower (str_lower s) = str_lower s;
  str_lower_strip : forall s, str_lower (strip s) = strip (str_lower s);
  str_lower_ascii : forall s, is_ascii s = true -> str_lower s = lower_ascii s;
  str_lower_empty : forall s, str_lower s = EmptyString -> s = EmptyString
}.

(** [input(...).strip().lower()] *)
Definition normalize {P : PyStr} (line : string) : string :=
  str_lower (strip line).

End Text.

(** ** The engine object *)

(** Methods of [stockfish.Stockfish] used by the program.  Every call
    takes the engine's state, returns normally or raises, and leaves a new
    state behind. *)
Class Engine : Type := {
  estate : Type;
  get_board_visual : estate -> outcome string * estate;
  get_fen_position : estate -> outcome string * estate;
  is_move_correct : string -> estate -> outcome bool * estate;
  make_moves_from_current_position : list string -> estate -> outcome unit * estate;
  set_position : list string -> estate -> outcome unit * estate;
  get_best_move : estate -> outcome (option string) * estate;
  get_best_move_time : Z -> estate -> outcome (option string) * estate;
  get_evaluation : estate -> outcome evaluation * estate
}.

(** The contract of the engine session: the state carries a chess
    position; queries do not move it, [make_moves_from_current_position]
    plays on from it, [set_position] replays from the start, and
    [get_fen_position] reports it. *)
Class ChessEngine (E : Engine) : Type := {
  position : Type;
  startpos : position;
  play : position -> string -> position;
  fen_of : position -> string;
  position_of : estate -> position;
  get_board_visual_pos : forall e,
    position_of (snd (get_board_visual e)) = position_of e;
  get_fen_position_pos : forall e,
    position_of (snd (get_fen_position e)) = position_of e;
  is_move_correct_pos : forall m e,
    position_of (snd (is_move_correct m e)) = position_of e;
  get_best_move_pos : forall e,
    position_of (snd (get_best_move e)) = position_of e;
  get_best_move_time_pos : forall t e,
    position_of (snd (get_best_move_time t e)) = position_of e;
  get_evaluation_pos : forall e,
    position_of (snd (get_evaluation e)) = position_of e;
  get_fen_position_reports : forall e s e',
    get_fen_position e = (Ok s, e') -> s = fen_of (position_of e);
  make_moves_plays : forall ms e e',
    make_moves_from_current_position ms e = (Ok tt, e') ->
    position_of e' = fold_left play ms (position_of e);
  set_position_replays : forall ms e e',
    set_position ms e = (Ok tt, e') ->
    position_of e' = fold_left play ms startpos
}.

(** Replaying a history from the standard starting position. *)
Definition replay {E : Engine} {C : ChessEngine E} (ms : list string) : position :=
  fold_left play ms startpos.

(** ** Program state and the monad of the program *)

Inductive output : Type :=
| ClearScreen                 (* os.system("cls"/"clear") *)
| Prompt (s : string)         (* the prompt written by input(...) *)
| PrintLine (s : string).     (* one print(...) call, without its final newline *)

Section Program.

Context {E : Engine}.

Record state : Type := {
  engine : estate;
  moves_history : list string;
  stdout : list output
}.

Definition with_engine (e : estate) (st : state) : state :=
  {| engine := e; moves_history := moves_history st; stdout := stdout st |}.

Definition with_history (h : list string) (st : state) : state :=
  {| engine := engine st; moves_history := h; stdout := stdout st |}.

Definition with_stdout (o : list output) (st : state) : state :=
  {| engine := engine st; moves_history := moves_history st; stdout := o |}.

(** A computation changes the state and returns or raises; what it did
    before raising stays done. *)
Definition M (A : Type) : Type := state -> outcome A * state.

Definition ret {A} (a : A) : M A := fun st => (Ok a, st).

Definition bind {A B} (c : M A) (k : A -> M B) : M B :=
  fun st =>
    match c st with
    | (Ok a, st') => k a st'
    | (Raise x, st') => (Raise x, st')
    end.

(** [try: body / except Exception: handler] *)
Definition try_except {A} (body handler : M A) : M A :=
  fun st =>
    match body st with
    | (Raise x, st') => if is_Exception x then handler st' else (Raise x, st')
    | r => r
    end.

(** A method call on the module-level [engine]. *)
Definition call {A} (op : estate -> outcome A * estate) : M A :=
  fun st => let (r, e') := op (engine st) in (r, with_engine e' st).

Definition emit (o : output) : M unit :=
  fun st => (Ok tt, with_stdout (stdout st ++ [o]) st).

Definition print (s : string) : M unit := emit (PrintLine s).

Definition get_history : M (list string) := fun st => (Ok (moves_history st), st).

Definition set_history (h : list string) : M unit :=
  fun st => (Ok tt, with_history h st).

End Program.

Declare Scope prog_scope.
Delimit Scope prog_scope with prog.
Notation "x <- c ;; k" := (bind c (fun x => k))
  (at level 61, c at next level, right associativity) : prog_scope.
Notation "c ;; k" := (bind c (fun _ => k))
  (at level 61, right associativity) : prog_scope.
Open Scope prog_scope.

(** ** The functions of [main.py] *)

Section Functions.

Context {E : Engine} {P : Text.PyStr}.

Definition clear_screen : M unit := emit ClearScreen.

Definition show_board : M unit :=
  try_except
    (s <- call get_board_visual ;; print s)
    (fen <- call get_fen_position ;;
     print (nl ++ "Current FEN:" ++ nl ++ " " ++ fen)).

Definition apply_move_uci (uci_move : string) : M bool :=
  ok <- call (is_move_correct uci_move) ;;
  if negb ok then ret false
  else
    call (make_moves_from_current_position [uci_move]) ;;
    h <- get_history ;;
    set_history (h ++ [uci_move]) ;;
    ret true.

Definition undo_last_halfmove : M bool :=
  h <- get_history ;;
  match h with
  | [] => ret false
  | _ :: _ =>
      set_history (removelast h) ;;
      h' <- get_history ;;
      call (set_position h') ;;
      ret true
  end.

(** Line 67, [engine.get_best_move_time(ms) if ms else engine.get_best_move()]:
    [ms] is an [int | None], and [if ms] is false for [None] and for [0]. *)
Definition best_query (ms : option Z) : estate -> outcome (option string) * estate :=
  match ms with
  | Some t => if (t =? 0)%Z then get_best_move else get_best_move_time t
  | None => get_best_move
  end.

Definition engine_reply (ms : option Z) : M (option string) :=
  best <- call (best_query ms) ;;
  match best with
  | None => ret None
  | Some b =>
      call (make_moves_from_current_position [b]) ;;
      h <- get_history ;;
      set_history (h ++ [b]) ;;
      ret (Some b)
  end.

Definition help_text : string :=
  nl ++ "Commands:" ++ nl ++
  "  e2e4           -> make a UCI move (examples: e2e4, g1f3, e7e8q)" ++ nl ++
  "  hint           -> ask engine for best move (does not play)" ++ nl ++
  "  go             -> engine plays its move" ++ nl ++
  "  undo           -> undo last half-move" ++ nl ++
  "  new            -> start new game" ++ nl ++
  "  fen            -> show current FEN" ++ nl ++
  "  eval           -> show engine evaluation (if supported)" ++ nl ++
  "  help           -> show this help" ++ nl ++
  "  exit           -> quit game" ++ nl.

(** How one pass through the body of [while True] ends. *)
Inductive control : Type := Break | Continue.

(** The body of the loop, from line 103 on, for the normalised command. *)
Definition dispatch (cmd : string) : M control :=
  if (cmd =? "exit") || (cmd =? "quit") || (cmd =? "q") then
    print "Thanks for playing!" ;; ret Break
  else if cmd =? "help" then
    clear_screen ;; print help_text ;; show_board ;; ret Continue
  else if cmd =? "new" then
    set_history [] ;;
    call (set_position []) ;;
    clear_screen ;; show_board ;; ret Continue
  else if cmd =? "undo" then
    undone <- undo_last_halfmove ;;
    (if undone then clear_screen ;; show_board
     else print "Nothing to undo.") ;;
    ret Continue
  else if cmd =? "fen" then
    fen <- call get_fen_position ;; print fen ;; ret Continue
  else if cmd =? "hint" then
    suggestion <- call get_best_move ;;
    print ("Engine suggests: " ++ or_default suggestion "(no move)") ;;
    ret Continue
  else if cmd =? "go" then
    mv <- engine_reply None ;;
    clear_screen ;;
    (if truthy mv then
       print ("Engine plays: " ++ or_default mv "") ;; show_board
     else print "Engine has no move (game over?).") ;;
    ret Continue
  else if cmd =? "eval" then
    try_except
      (ev <- call get_evaluation ;;
       print ("Evaluation: " ++ repr_evaluation ev))
      (print "Your build does not support evaluation output.") ;;
    ret Continue
  else
    moved <- apply_move_uci cmd ;;
    (if moved then
       clear_screen ;; show_board ;;
       mv <- engine_reply None ;;
       if truthy mv then
         print ("Engine replies: " ++ or_default mv "") ;; show_board
       else print "Engine has no reply (checkmate or draw?)."
     else
       print "Invalid input. Use UCI (e.g., e2e4) or type 'help' for commands.") ;;
    ret Continue.

(** What [input] delivers: a line, end of input, or Ctrl-C. *)
Inductive input_event : Type :=
| Line (s : string)
| Eof
| Interrupt.

Definition prompt : M unit := emit (Prompt (nl ++ "Your move/command: ")).

(** One pass through the loop: read, normalise, dispatch. *)
Definition iteration (i : input_event) : M control :=
  prompt ;;
  match i with
  | Line l => dispatch (Text.normalize l)
  | Eof | Interrupt => print (nl ++ "Exiting…") ;; ret Break
  end.

(** [while True] over the input stream; a stream that runs out is at
    end of file. *)
Fixpoint main_loop (inputs : list input_event) : M unit :=
  match inputs with
  | [] => iteration Eof ;; ret tt
  | i :: rest =>
      c <- iteration i ;;
      match c with
      | Break => ret tt
      | Continue => main_loop rest
      end
  end.

Definition main (inputs : list input_event) : M unit :=
  clear_screen ;;
  print "♟ Chess CLI with Stockfish (UCI). White moves first." ;;
  print help_text ;;
  show_board ;;
  main_loop inputs.

(** The module-level state right after [engine = Stockfish(...)] and
    [moves_history = []]. *)
Definition initial (e0 : estate) : state :=
  {| engine := e0; moves_history := []; stdout := [] |}.

(** Lines 10-17: the executable must be on the PATH or be a file. *)
Definition resolve_executable (which_found is_file : bool) : outcome unit :=
  if negb which_found && negb is_file then Raise RuntimeError else Ok tt.

(** The script as a whole: resolution of the executable, then [main]. *)
Definition script (which_found is_file : bool) (e0 : estate)
    (inputs : list input_event) : outcome unit * list output :=
  match resolve_executable which_found is_file with
  | Raise x => (Raise x, [])
  | Ok _ => let (r, st) := main inputs (initial e0) in (r, stdout st)
  end.

End Functions.

(** ** A small engine to run the program on

    A stand-in for the engine process.  Its state is the list of moves
    played since the start and the number of calls served so far.  A move
    is accepted when it has four characters and is not [e2e5]; the
    fixed-depth search answers [e7e5] and the timed search [g8f6] while
    fewer than four moves were played.  The configuration says after how
    many calls the process dies (never, for [None]) and whether the build
    renders boards and emits evaluations. *)

Module Toy.

Record config : Type := {
  lifetime : option nat;
  has_visual : bool;
  has_eval : bool
}.

Record session_state : Type := {
  played : list string;
  calls : nat
}.

Definition fresh : session_state := {| played := []; calls := 0 |}.

Definition full : config :=
  {| lifetime := None; has_visual := true; has_eval := true |}.

Definition bare : config :=
  {| lifetime := None; has_visual := false; has_eval := false |}.

Definition dying (n : nat) : config :=
  {| lifetime := Some n; has_visual := true; has_eval := true |}.

Definition alive (c : config) (e : session_state) : bool :=
  match lifetime c with
  | None => true
  | Some n => (calls e <? n)%nat
  end.

Definition served (p : list string) (e : session_state) : session_state :=
  {| played := p; calls := S (calls e) |}.

Definition legal (m : string) : bool :=
  (String.length m =? 4)%nat && negb (m =? "e2e5").

Definition fen (p : list string) : string :=
  String.concat " " ("startpos" :: p).

Definition push (p : list string) (m : string) : list string := p ++ [m].

Fixpoint make_moves (ms : list string) (p : list string)
  : outcome unit * list string :=
  match ms with
  | [] => (Ok tt, p)
  | m :: rest =>
      if legal m then make_moves rest (push p m)
      else (Raise ValueError, p)
  end.

Definition answer {A} (c : config) (supported : bool) (a : A)
    (e : session_state) : outcome A * session_state :=
  if alive c e && supported then (Ok a, served (played e) e)
  else (Raise StockfishException, served (played e) e).

Definition command (c : config) (ms : list string) (from : list string)
    (e : session_state) : outcome unit * session_state :=
  if alive c e then
    let (r, p) := make_moves ms from in (r, served p e)
  else (Raise StockfishException, served (played e) e).

Definition search (reply : string) (e : session_state) : option string :=
  if (List.length (played e) <? 4)%nat then Some reply else None.

Definition session (c : config) : Engine := {|
  estate := session_state;
  get_board_visual := fun e =>
    answer c (has_visual c) ("board: " ++ fen (played e)) e;
  get_fen_position := fun e => answer c true (fen (played e)) e;
  is_move_correct := fun m e => answer c true (legal m) e;
  make_moves_from_current_position := fun ms e => command c ms (played e) e;
  set_position := fun ms e => command c ms [] e;
  get_best_move := fun e => answer c true (search "e7e5" e) e;
  get_best_move_time := fun _ e => answer c true (search "g8f6" e) e;
  get_evaluation := fun e =>
    answer c (has_eval c)
      {| ev_type := cp; ev_value := Z.of_nat (List.length (played e)) |} e
|}.

Lemma answer_played {A} (c : config) (b : bool) (a : A) (e : session_state) :
  played (snd (answer c b a e)) = played e.
Proof. unfold answer. now destruct (alive c e && b). Qed.

Lemma make_moves_fold (ms p p' : list string) :
  make_moves ms p = (Ok tt, p') -> p' = fold_left push ms p.
Proof.
  revert p. induction ms as [|m ms IH]; intros p H; simpl in *.
  - now inversion H.
  - destruct (legal m); [now apply IH | discriminate].
Qed.

Lemma command_played (c : config) (ms from : list string) (e e' : session_state) :
  command c ms from e = (Ok tt, e') -> played e' = fold_left push ms from.
Proof.
  unfold command. destruct (alive c e); [|discriminate].
  destruct (make_moves ms from) as [r p] eqn:Hm. intros H.
  inversion H; subst. now apply make_moves_fold.
Qed.

#[export] Instance chess (c : config) : ChessEngine (session c).
Proof.
  refine {| position := list string;
            startpos := [];
            play := push;
            fen_of := fen;
            position_of := played : @estate (session c) -> list string |};
    simpl; intros; try apply answer_played.
  - unfold answer in H. destruct (alive c e && true); now inversion H.
  - now apply command_played with (1 := H).
  - now apply command_played with (1 := H).
Defined.

(** The module-level state over a freshly started session. *)
Definition start (c : config) : @state (session c) :=
  @initial (session c) fresh.

(** The session after [n] calls, with the moves [p] played. *)
Definition at_call {c : config} (n : nat) (p : list string) : @estate (session c) :=
  {| played := p; calls := n |}.

(** After [e2e4 e7e5]. *)
Definition two_moves : @state (session full) :=
  @Build_state (session full) (at_call 7 ["e2e4"; "e7e5"]) ["e2e4"; "e7e5"] [].

(** After four moves the small engine has no move left. *)
Definition game_over : @state (session full) :=
  @Build_state (session full)
    (at_call 9 ["e2e4"; "e7e5"; "g1f3"; "b8c6"])
    ["e2e4"; "e7e5"; "g1f3"; "b8c6"] [].

(** A session at the prompt. *)
Definition game : list input_event :=
  [Line "  E2E4 "; Line "undo"; Line "go"; Line "eval"; Line "fen";
   Line "d2d4"; Line "e2e5"; Line "hint"; Line "new"; Line "g1f3";
   Line " Quit"; Line "e2e4"].

End Toy.

(** * Properties *)

Open Scope list_scope.

(** ** Facts about the monad *)

Ltac unfold_prog :=
  unfold bind, ret, call, emit, print, get_history, set_history, try_except,
    clear_screen, prompt in *.

(** ** Characters, stripping and lower-casing *)

Module TextFacts.
Import Text.
Local Open Scope string_scope.

(** *** Splitting a text into characters *)

Lemma join_chars (s : string) : join (chars s) = s.
Proof.
  induction s as [|c s IH]; [reflexivity|]. simpl.
  destruct (chars s) as [|ch rest]; simpl in *.
  - now rewrite <- IH.
  - destruct (starts_with_continuation ch); simpl; now rewrite IH.
Qed.

Fixpoint all_continuation (s : string) : bool :=
  match s with
  | EmptyString => true
  | String c s' => is_continuation c && all_continuation s'
  end.

(** One byte and then continuation bytes only. *)
Definition char_ok (ch : string) : bool :=
  match ch with
  | EmptyString => false
  | String _ t => all_continuation t
  end.

Definition inner_ok (ch : string) : Prop :=
  char_ok ch = true /\ starts_with_continuation ch = false.

(** What [chars] returns: characters, of which only the first may start
    with a continuation byte. *)
Definition well_split (l : list string) : Prop :=
  match l with
  | [] => True
  | ch :: rest => char_ok ch = true /\ Forall inner_ok rest
  end.

Lemma head_chars (s ch : string) (rest : list string) :
  chars s = ch :: rest ->
  starts_with_continuation ch = starts_with_continuation s.
Proof.
  destruct s as [|c s]; [discriminate|]. simpl.
  destruct (chars s) as [|ch' rest'].
  - intros H. now inversion H.
  - destruct (starts_with_continuation ch'); intros H; now inversion H.
Qed.

Lemma chars_well_split (s : string) : well_split (chars s).
Proof.
  induction s as [|c s IH]; [exact I|]. simpl.
  destruct (chars s) as [|ch rest]; [now split|].
  destruct IH as [Hok Hrest].
  destruct (starts_with_continuation ch) eqn:Hc; simpl.
  - split; [|exact Hrest].
    destruct ch as [|d t]; [discriminate|]. simpl in *. now rewrite Hc.
  - split; [reflexivity|]. constructor; [now split | exact Hrest].
Qed.

Lemma well_split_tail (ch : string) (rest : list string) :
  well_split (ch :: rest) -> well_split rest.
Proof.
  intros [_ H]. destruct rest as [|x rest]; [exact I|].
  inversion H as [|? ? [Hx _] Hr]; subst. now split.
Qed.

Lemma chars_cons (c : ascii) (u t : string) :
  all_continuation u = true ->
  starts_with_continuation t = false ->
  chars (String c (u ++ t)) = String c u :: chars t.
Proof.
  revert c. induction u as [|d u IH]; intros c Hu Ht.
  - simpl. destruct (chars t) as [|ch rest] eqn:Hc; [reflexivity|].
    now rewrite (head_chars _ Hc), Ht.
  - simpl in Hu. apply andb_prop in Hu. destruct Hu as [Hd Hu].
    change (chars (String c (String d u ++ t)))
      with (match chars (String d (u ++ t)) with
            | ch :: rest =>
                if starts_with_continuation ch then String c ch :: rest
                else String c EmptyString :: ch :: rest
            | [] => [String c EmptyString]
            end).
    rewrite (IH d Hu Ht). simpl. now rewrite Hd.
Qed.

Lemma join_start (l : list string) :
  Forall inner_ok l -> starts_with_continuation (join l) = false.
Proof.
  intros H. destruct H as [|x l [Hx Hs] _]; [reflexivity|].
  destruct x as [|c t]; [discriminate|]. exact Hs.
Qed.

Lemma chars_join (l : list string) : well_split l -> chars (join l) = l.
Proof.
  induction l as [|ch rest IH]; [reflexivity|]. intros Hw.
  pose proof (well_split_tail Hw) as Hr. destruct Hw as [Hok Hin].
  destruct ch as [|c u]; [discriminate|]. simpl in Hok.
  change (join (String c u :: rest)) with (String c (u ++ join rest)).
  rewrite chars_cons; [now rewrite IH | exact Hok | now apply join_start].
Qed.

(** *** Stripping *)

Lemma Forall_lstrip (Q : string -> Prop) (l : list string) :
  Forall Q l -> Forall Q (lstrip l).
Proof.
  induction 1 as [|x l Hx Hl IH]; simpl; [constructor|].
  destruct (is_space x); [exact IH | now constructor].
Qed.

Lemma Forall_rstrip (Q : string -> Prop) (l : list string) :
  Forall Q l -> Forall Q (rstrip l).
Proof.
  induction 1 as [|x l Hx Hl IH]; simpl; [constructor|].
  destruct (rstrip l) as [|y r].
  - destruct (is_space x); [constructor | now constructor].
  - now constructor.
Qed.

Lemma well_split_lstrip (l : list string) :
  well_split l -> well_split (lstrip l).
Proof.
  induction l as [|ch rest IH]; [trivial|]. intros Hw. simpl.
  destruct (is_space ch); [apply IH, (well_split_tail Hw) | exact Hw].
Qed.

Lemma well_split_rstrip (l : list string) :
  well_split l -> well_split (rstrip l).
Proof.
  destruct l as [|ch rest]; [trivial|]. intros [Hok Hin]. simpl.
  pose proof (Forall_rstrip Hin) as Hr.
  destruct (rstrip rest); [destruct (is_space ch); simpl; auto|].
  now split.
Qed.

(** A list that is empty or starts with a character that is not white
    space. *)
Definition left_clean (l : list string) : Prop :=
  match l with
  | [] => True
  | ch :: _ => is_space ch = false
  end.

Lemma lstrip_left_clean (l : list string) : left_clean (lstrip l).
Proof.
  induction l as [|ch l IH]; simpl; [exact I|].
  destruct (is_space ch) eqn:Hc; [exact IH | exact Hc].
Qed.

Lemma lstrip_of_left_clean (l : list string) : left_clean l -> lstrip l = l.
Proof. destruct l as [|ch l]; simpl; [reflexivity|]. now intros ->. Qed.

Lemma rstrip_left_clean (l : list string) :
  left_clean l -> left_clean (rstrip l).
Proof.
  destruct l as [|ch l]; simpl; [trivial|]. intros Hc.
  destruct (rstrip l); [rewrite Hc|]; exact Hc.
Qed.

Lemma rstrip_idem (l : list string) : rstrip (rstrip l) = rstrip l.
Proof.
  induction l as [|ch l IH]; simpl; [reflexivity|].
  destruct (rstrip l) as [|d r] eqn:Hr.
  - destruct (is_space ch) eqn:Hc; simpl; [reflexivity | now rewrite Hc].
  - cbn [rstrip] in *. now rewrite IH.
Qed.

Lemma strip_chars (s : string) :
  chars (strip s) = rstrip (lstrip (chars s)).
Proof.
  unfold strip. apply chars_join, well_split_rstrip, well_split_lstrip,
    chars_well_split.
Qed.

Lemma strip_idem (s : string) : strip (strip s) = strip s.
Proof.
  unfold strip at 1. rewrite strip_chars.
  rewrite lstrip_of_left_clean
    by apply rstrip_left_clean, lstrip_left_clean.
  now rewrite rstrip_idem.
Qed.

(** *** Normalising *)

Lemma normalize_idem {P : PyStr} (line : string) :
  normalize (normalize line) = normalize line.
Proof.
  unfold normalize.
  now rewrite <- str_lower_strip, str_lower_idem, str_lower_strip,
    str_lower_strip, strip_idem.
Qed.

Lemma normalize_ascii {P : PyStr} (line : string) :
  is_ascii (strip line) = true ->
  normalize line = lower_ascii (strip line).
Proof. intros H. unfold normalize. now apply str_lower_ascii. Qed.

(** *** Lower-casing ASCII letters only

    The lower-casing that leaves every character outside ASCII alone
    meets the contract [PyStr]. *)

Lemma lower_ascii_char_idem (c : ascii) :
  lower_ascii_char (lower_ascii_char c) = lower_ascii_char c.
Proof. destruct c as [[] [] [] [] [] [] [] []]; reflexivity. Qed.

Lemma lower_ascii_char_continuation (c : ascii) :
  is_continuation (lower_ascii_char c) = is_continuation c.
Proof. destruct c as [[] [] [] [] [] [] [] []]; reflexivity. Qed.

Lemma lower_ascii_idem (s : string) : lower_ascii (lower_ascii s) = lower_ascii s.
Proof.
  induction s as [|c s IH]; simpl; [reflexivity|].
  now rewrite lower_ascii_char_idem, IH.
Qed.

Lemma lower_ascii_app (a b : string) :
  lower_ascii (a ++ b) = lower_ascii a ++ lower_ascii b.
Proof. induction a as [|c a IH]; simpl; [reflexivity | now rewrite IH]. Qed.

Lemma lower_ascii_join (l : list string) :
  lower_ascii (join l) = join (map lower_ascii l).
Proof.
  induction l as [|ch l IH]; simpl; [reflexivity|].
  now rewrite lower_ascii_app, IH.
Qed.

Lemma lower_ascii_start (s : string) :
  starts_with_continuation (lower_ascii s) = starts_with_continuation s.
Proof. destruct s; simpl; [reflexivity | apply lower_ascii_char_continuation]. Qed.

Lemma lower_ascii_chars (s : string) :
  chars (lower_ascii s) = map lower_ascii (chars s).
Proof.
  induction s as [|c s IH]; [reflexivity|]. simpl. rewrite IH.
  destruct (chars s) as [|ch rest]; [reflexivity|]. simpl.
  rewrite lower_ascii_start. now destruct (starts_with_continuation ch).
Qed.

(** Bytes that are the lower-case letters a-z. *)
Definition is_az (c : ascii) : bool :=
  let n := nat_of_ascii c in ((97 <=? n) && (n <=? 122))%nat.

Fixpoint no_az (s : string) : bool :=
  match s with
  | EmptyString => true
  | String c s' => negb (is_az c) && no_az s'
  end.

Lemma lower_ascii_char_fix (c : ascii) :
  is_az (lower_ascii_char c) = false -> lower_ascii_char c = c.
Proof. destruct c as [[] [] [] [] [] [] [] []]; (reflexivity || discriminate). Qed.

Lemma lower_ascii_fix (s : string) :
  no_az (lower_ascii s) = true -> lower_ascii s = s.
Proof.
  induction s as [|c s IH]; simpl; [reflexivity|]. intros H.
  apply andb_prop in H. destruct H as [Hc Hs].
  apply negb_true_iff in Hc.
  now rewrite (lower_ascii_char_fix _ Hc), (IH Hs).
Qed.

Lemma spaces_plain :
  Forall (fun p => no_az p = true /\ lower_ascii p = p) spaces.
Proof. unfold spaces. simpl. repeat constructor. Qed.

Lemma is_space_In (ch : string) : is_space ch = true <-> In ch spaces.
Proof.
  unfold is_space. rewrite existsb_exists. split.
  - intros (p & Hp & He). apply String.eqb_eq in He. now subst.
  - intros H. exists ch. split; [exact H | apply String.eqb_refl].
Qed.

Lemma is_space_lower_ascii (ch : string) :
  is_space (lower_ascii ch) = is_space ch.
Proof.
  pose proof spaces_plain as Hp. rewrite Forall_forall in Hp.
  destruct (is_space ch) eqn:Hc.
  - apply is_space_In in Hc. destruct (Hp _ Hc) as [_ Hf]. rewrite Hf.
    now apply is_space_In.
  - destruct (is_space (lower_ascii ch)) eqn:Hl; [|reflexivity].
    apply is_space_In in Hl. destruct (Hp _ Hl) as [Hn _].
    apply lower_ascii_fix in Hn. rewrite Hn in Hl.
    apply is_space_In in Hl. congruence.
Qed.

Lemma lower_ascii_lstrip (l : list string) :
  lstrip (map lower_ascii l) = map lower_ascii (lstrip l).
Proof.
  induction l as [|ch l IH]; simpl; [reflexivity|].
  rewrite is_space_lower_ascii. now destruct (is_space ch).
Qed.

Lemma lower_ascii_rstrip (l : list string) :
  rstrip (map lower_ascii l) = map lower_ascii (rstrip l).
Proof.
  induction l as [|ch l IH]; simpl; [reflexivity|].
  rewrite IH, is_space_lower_ascii.
  destruct (rstrip l); simpl; [now destruct (is_space ch) | reflexivity].
Qed.

Lemma lower_ascii_strip (s : string) :
  lower_ascii (strip s) = strip (lower_ascii s).
Proof.
  unfold strip.
  now rewrite lower_ascii_join, lower_ascii_chars, lower_ascii_lstrip,
    lower_ascii_rstrip.
Qed.

Lemma lower_ascii_empty (s : string) :
  lower_ascii s = EmptyString -> s = EmptyString.
Proof. destruct s; [reflexivity | discriminate]. Qed.

Definition ascii_only : PyStr := {|
  str_lower := lower_ascii;
  str_lower_idem := lower_ascii_idem;
  str_lower_strip := lower_ascii_strip;
  str_lower_ascii := fun s _ => eq_refl;
  str_lower_empty := lower_ascii_empty
|}.

End TextFacts.

Section Correctness.

Context {E : Engine} {C : ChessEngine E} {P : Text.PyStr}.

(** History and engine position agree: replaying the history from the
    start gives the position the engine is in. *)
Definition synced (st : state) : Prop :=
  position_of (engine st) = replay (moves_history st).

Lemma replay_app (h : list string) (m : string) :
  replay (h ++ [m]) = play (replay h) m.
Proof. unfold replay. now rewrite fold_left_app. Qed.

Lemma removelast_last (h : list string) (m : string) :
  removelast (h ++ [m]) = h.
Proof. now rewrite removelast_app, app_nil_r. Qed.

Lemma query_position {A} (q : estate -> outcome A * estate)
    (e e1 : estate) (r : outcome A) :
  (forall e, position_of (snd (q e)) = position_of e) ->
  q e = (r, e1) -> position_of e1 = position_of e.
Proof. intros Hq Heq. specialize (Hq e). now rewrite Heq in Hq. Qed.

Lemma best_query_pos (ms : option Z) (e : estate) :
  position_of (snd (best_query ms e)) = position_of e.
Proof.
  destruct ms as [t|]; simpl; [destruct (t =? 0)%Z|];
    auto using get_best_move_pos, get_best_move_time_pos.
Qed.

(** ** The user's move *)

(** C2.  [apply_move_uci]: when the engine reports the move incorrect the
    result is [False], the history is the same and the engine was only
    asked, so its position is the same; when the engine reports it
    correct and plays it, the position is the old one with the move
    played, the history is the old one with that one move at its end,
    and the result is [True]. *)
Theorem apply_move_uci_spec (uci_move : string) (st : state) :
  (forall e1,
      is_move_correct uci_move (engine st) = (Ok false, e1) ->
      apply_move_uci uci_move st = (Ok false, with_engine e1 st) /\
      moves_history (with_engine e1 st) = moves_history st /\
      position_of e1 = position_of (engine st))
  /\
  (forall e1 e2,
      is_move_correct uci_move (engine st) = (Ok true, e1) ->
      make_moves_from_current_position [uci_move] e1 = (Ok tt, e2) ->
      apply_move_uci uci_move st =
        (Ok true, with_history (moves_history st ++ [uci_move]) (with_engine e2 st)) /\
      position_of e2 = play (position_of (engine st)) uci_move).
Proof.
  split.
  - intros e1 Hq. repeat split.
    + unfold apply_move_uci. unfold_prog. now rewrite Hq.
    + eapply query_position; [apply is_move_correct_pos | exact Hq].
  - intros e1 e2 Hq Hm. split.
    + unfold apply_move_uci. unfold_prog. rewrite Hq. simpl. now rewrite Hm.
    + rewrite (make_moves_plays _ _ Hm). simpl. f_equal.
      eapply query_position; [apply is_move_correct_pos | exact Hq].
Qed.

(** ** Undo *)

(** C3.  [undo_last_halfmove]: on an empty history the result is [False]
    and nothing changes; on a history [h ++ [m]] the history becomes [h],
    one shorter, the engine is given [h] through [set_position], which
    puts it in the position replayed from the start, and the result is
    [True]. *)
Theorem undo_last_halfmove_spec (st : state) :
  (moves_history st = [] -> undo_last_halfmove st = (Ok false, st))
  /\
  (forall (h : list string) (m : string) e1,
      moves_history st = (h ++ [m])%list ->
      set_position h (engine st) = (Ok tt, e1) ->
      undo_last_halfmove st = (Ok true, with_engine e1 (with_history h st)) /\
      S (List.length h) = List.length (moves_history st) /\
      position_of e1 = replay h).
Proof.
  split.
  - intros Hh. unfold undo_last_halfmove. unfold_prog. now rewrite Hh.
  - intros h m e1 Hh Hs. repeat split.
    + unfold undo_last_halfmove. unfold_prog. rewrite Hh.
      destruct (h ++ [m]) as [|x l] eqn:Hl.
      * now destruct h.
      * rewrite <- Hl, removelast_last. simpl. now rewrite Hs.
    + rewrite Hh, length_app. simpl. lia.
    + exact (set_position_replays _ _ Hs).
Qed.

(** ** The engine's move *)

(** C5.  [engine_reply]: when the query returns no move the result is
    [None], the history is the same and the engine was only asked; when
    it returns a move and the engine plays it, the move is at the end of
    the history, the position is the old one with the move played, and
    the move is the result.  History and position are then the ones
    [apply_move_uci] leaves when it accepts the same move. *)
Theorem engine_reply_spec (ms : option Z) (st : state) :
  (forall e1,
      best_query ms (engine st) = (Ok None, e1) ->
      engine_reply ms st = (Ok None, with_engine e1 st) /\
      moves_history (with_engine e1 st) = moves_history st /\
      position_of e1 = position_of (engine st))
  /\
  (forall best e1 e2,
      best_query ms (engine st) = (Ok (Some best), e1) ->
      make_moves_from_current_position [best] e1 = (Ok tt, e2) ->
      engine_reply ms st =
        (Ok (Some best), with_history (moves_history st ++ [best]) (with_engine e2 st)) /\
      position_of e2 = play (position_of (engine st)) best /\
      (forall st',
          apply_move_uci best (with_engine e1 st) = (Ok true, st') ->
          moves_history st' = (moves_history st ++ [best])%list /\
          position_of (engine st') = position_of e2)).
Proof.
  split.
  - intros e1 Hq. repeat split.
    + unfold engine_reply. unfold_prog. now rewrite Hq.
    + eapply query_position; [apply best_query_pos | exact Hq].
  - intros best e1 e2 Hq Hm.
    assert (Hp : position_of e2 = play (position_of (engine st)) best).
    { rewrite (make_moves_plays _ _ Hm). simpl. f_equal.
      eapply query_position; [apply best_query_pos | exact Hq]. }
    repeat split.
    + unfold engine_reply. unfold_prog. rewrite Hq. simpl. now rewrite Hm.
    + exact Hp.
    + revert H. unfold apply_move_uci. unfold_prog. simpl.
      destruct (is_move_correct best e1) as [[[]|] e1']; simpl; try discriminate.
      destruct (make_moves_from_current_position [best] e1') as [[[]|] e2'];
        simpl; try discriminate.
      intros H. now inversion H.
    + revert H. unfold apply_move_uci. unfold_prog. simpl.
      destruct (is_move_correct best e1) as [[[]|] e1'] eqn:Hl; simpl;
        try discriminate.
      destruct (make_moves_from_current_position [best] e1') as [[[]|] e2'] eqn:Hm';
        simpl; try discriminate.
      intros H. inversion H; subst; simpl.
      rewrite (make_moves_plays _ _ Hm'), (make_moves_plays _ _ Hm). simpl.
      f_equal. eapply query_position; [apply is_move_correct_pos | exact Hl].
Qed.

(** C6.  The query behind [engine_reply].  With a time budget other than
    zero the reply is what the timed search with that budget gives: its
    error is the error of [engine_reply], its [None] is the result
    [None], its move is the move played and returned.  Without a budget,
    and with a budget of zero, the same holds of the fixed-depth
    search. *)
Theorem engine_reply_query (ms : option Z) (st : state) :
  let replies (q : estate -> outcome (option string) * estate) :=
    (forall x e1,
        q (engine st) = (Raise x, e1) ->
        engine_reply ms st = (Raise x, with_engine e1 st)) /\
    (forall e1,
        q (engine st) = (Ok None, e1) ->
        engine_reply ms st = (Ok None, with_engine e1 st)) /\
    (forall b e1 e2,
        q (engine st) = (Ok (Some b), e1) ->
        make_moves_from_current_position [b] e1 = (Ok tt, e2) ->
        engine_reply ms st =
          (Ok (Some b),
           with_history (moves_history st ++ [b]) (with_engine e2 st))) in
  (forall t, ms = Some t -> t <> 0%Z -> replies (get_best_move_time t))
  /\
  (ms = None \/ ms = Some 0%Z -> replies get_best_move).
Proof.
  assert (Hq : forall q, best_query ms = q ->
             (forall x e1,
                 q (engine st) = (Raise x, e1) ->
                 engine_reply ms st = (Raise x, with_engine e1 st)) /\
             (forall e1,
                 q (engine st) = (Ok None, e1) ->
                 engine_reply ms st = (Ok None, with_engine e1 st)) /\
             (forall b e1 e2,
                 q (engine st) = (Ok (Some b), e1) ->
                 make_moves_from_current_position [b] e1 = (Ok tt, e2) ->
                 engine_reply ms st =
                   (Ok (Some b),
                    with_history (moves_history st ++ [b]) (with_engine e2 st)))).
  { intros q <-. unfold engine_reply. unfold_prog. repeat split.
    - intros x e1 H. now rewrite H.
    - intros e1 H. now rewrite H.
    - intros b e1 e2 H Hm. rewrite H. simpl. now rewrite Hm. }
  split.
  - intros t -> Ht. apply Hq. unfold best_query.
    destruct (Z.eqb_spec t 0); [contradiction | reflexivity].
  - intros [->| ->]; apply Hq; reflexivity.
Qed.

(** ** The board *)

Lemma show_board_history (st : state) :
  moves_history (snd (show_board st)) = moves_history st.
Proof.
  unfold show_board. unfold_prog.
  destruct (get_board_visual (engine st)) as [[s|x] e1]; simpl; auto.
  destruct (is_Exception x); simpl; auto.
  destruct (get_fen_position e1) as [[f|y] e2]; simpl; auto.
Qed.

Lemma show_board_position (st : state) :
  position_of (engine (snd (show_board st))) = position_of (engine st).
Proof.
  unfold show_board. unfold_prog.
  destruct (get_board_visual (engine st)) as [[s|x] e1] eqn:Hv; simpl;
    try (eapply query_position; [apply get_board_visual_pos | exact Hv]).
  destruct (is_Exception x); simpl;
    try (eapply query_position; [apply get_board_visual_pos | exact Hv]).
  destruct (get_fen_position e1) as [[f|y] e2] eqn:Hf; simpl;
    (transitivity (position_of e1);
     [ eapply query_position; [apply get_fen_position_pos | exact Hf]
     | eapply query_position; [apply get_board_visual_pos | exact Hv] ]).
Qed.

(** C7, as the code has it.  [show_board] prints the diagram when the
    engine renders one; when rendering raises an [Exception] and the
    position query answers, it prints the FEN in its place and returns;
    and it raises only if rendering raised something that is not an
    [Exception], or if the position query of the fallback raised too. *)
Theorem show_board_spec (st : state) :
  (forall s e1,
      get_board_visual (engine st) = (Ok s, e1) ->
      show_board st =
        (Ok tt, with_stdout (stdout st ++ [PrintLine s]) (with_engine e1 st)))
  /\
  (forall x e1 fen e2,
      get_board_visual (engine st) = (Raise x, e1) ->
      is_Exception x = true ->
      get_fen_position e1 = (Ok fen, e2) ->
      show_board st =
        (Ok tt,
         with_stdout
           (stdout st ++ [PrintLine (nl ++ "Current FEN:" ++ nl ++ " " ++ fen)%string])
           (with_engine e2 st)))
  /\
  (forall x st',
      show_board st = (Raise x, st') ->
      exists y e1,
        get_board_visual (engine st) = (Raise y, e1) /\
        (is_Exception y = false /\ x = y \/
         is_Exception y = true /\
         exists e2, get_fen_position e1 = (Raise x, e2))).
Proof.
  repeat split.
  - intros s e1 Hv. unfold show_board. unfold_prog. now rewrite Hv.
  - intros x e1 fen e2 Hv Hx Hf. unfold show_board. unfold_prog.
    rewrite Hv. simpl. rewrite Hx. simpl. now rewrite Hf.
  - intros x st'. unfold show_board. unfold_prog.
    destruct (get_board_visual (engine st)) as [[s|y] e1] eqn:Hv; simpl;
      [discriminate|].
    destruct (is_Exception y) eqn:Hy; simpl.
    + destruct (get_fen_position e1) as [[f|z] e2] eqn:Hf; simpl;
        [discriminate|].
      intros H. inversion H; subst. exists y, e1. split; [reflexivity|].
      right. split; [assumption|]. now exists e2.
    + intros H. inversion H; subst. exists x, e1. split; [reflexivity|].
      left. now split.
Qed.

(** ** Commands of the loop *)

(** C8.  The [eval] command when [get_evaluation] raises an [Exception]:
    the message about the build is printed, the history is the same, the
    engine was only asked, and the loop goes on with the next input. *)
Theorem eval_unsupported (st : state) (x : exn) (e1 : estate) :
  get_evaluation (engine st) = (Raise x, e1) ->
  is_Exception x = true ->
  dispatch "eval" st =
    (Ok Continue,
     with_stdout
       (stdout st ++ [PrintLine "Your build does not support evaluation output."])
       (with_engine e1 st))
  /\ position_of e1 = position_of (engine st)
  /\ forall rest,
       main_loop (Line "eval" :: rest) st =
       main_loop rest
         {| engine := e1;
            moves_history := moves_history st;
            stdout := stdout st ++
              [Prompt (nl ++ "Your move/command: ")%string;
               PrintLine "Your build does not support evaluation output."] |}.
Proof.
  intros Hev Hx. repeat split.
  - unfold dispatch. cbn [String.eqb Ascii.eqb Bool.eqb orb].
    unfold_prog. rewrite Hev. simpl. now rewrite Hx.
  - eapply query_position; [apply get_evaluation_pos | exact Hev].
  - intros rest. cbn [main_loop]. unfold iteration.
    rewrite TextFacts.normalize_ascii by reflexivity.
    change (Text.lower_ascii (Text.strip "eval")) with "eval"%string.
    unfold dispatch. cbn [String.eqb Ascii.eqb Bool.eqb orb].
    unfold_prog. simpl. rewrite Hev. simpl. rewrite Hx. simpl.
    now rewrite <- app_assoc.
Qed.

(** C9.  The [new] command: whatever happens next, the history is empty
    after it; the engine is given the empty sequence through
    [set_position], and when that call returns the command goes on to
    redraw the board with the engine at the starting position. *)
Theorem new_game_spec (st : state) :
  moves_history (snd (dispatch "new" st)) = []
  /\
  (forall x e1,
      set_position [] (engine st) = (Raise x, e1) ->
      dispatch "new" st = (Raise x, with_engine e1 (with_history [] st)))
  /\
  (forall e1,
      set_position [] (engine st) = (Ok tt, e1) ->
      position_of e1 = startpos /\
      dispatch "new" st =
        (clear_screen ;; show_board ;; ret Continue)
          (with_engine e1 (with_history [] st)) /\
      position_of (engine (snd (dispatch "new" st))) = replay []).
Proof.
  assert (Hd : dispatch "new" st =
               (set_history [] ;; call (set_position []) ;;
                clear_screen ;; show_board ;; ret Continue) st)
    by reflexivity.
  repeat split.
  - rewrite Hd. unfold_prog. simpl.
    destruct (set_position [] (engine st)) as [[[]|x] e1]; simpl; auto.
    match goal with |- context [show_board ?s] =>
      pose proof (show_board_history s) as Hh;
      destruct (show_board s) as [[[]|y] s'] end; simpl in *; exact Hh.
  - intros x e1 Hs. rewrite Hd. unfold_prog. simpl. now rewrite Hs.
  - exact (set_position_replays _ _ H).
  - rewrite Hd. unfold_prog. simpl. now rewrite H.
  - rewrite Hd. unfold_prog. simpl. rewrite H. simpl.
    match goal with |- context [show_board ?s] =>
      pose proof (show_board_position s) as Hp;
      destruct (show_board s) as [[[]|y] s'] end; simpl in *;
      rewrite Hp; exact (set_position_replays _ _ H).
Qed.

(** ** The invariant of the loop *)

(** [steady c]: [c] keeps history and position in step however it ends;
    [keeps c]: it does so when it returns. *)
Definition steady {A} (c : M A) : Prop :=
  forall st, synced st -> synced (snd (c st)).

Definition keeps {A} (c : M A) : Prop :=
  forall st a st', synced st -> c st = (Ok a, st') -> synced st'.

Lemma steady_keeps {A} (c : M A) : steady c -> keeps c.
Proof. intros Hc st a st' Hs Heq. specialize (Hc st Hs). now rewrite Heq in Hc. Qed.

Lemma steady_ret {A} (a : A) : steady (ret a).
Proof. now intros st Hs. Qed.

Lemma steady_bind {A B} (c : M A) (k : A -> M B) :
  steady c -> (forall a, steady (k a)) -> steady (bind c k).
Proof.
  intros Hc Hk st Hs. unfold bind. specialize (Hc st Hs).
  destruct (c st) as [[a|x] st1]; simpl in *; auto. now apply Hk.
Qed.

Lemma steady_try {A} (body handler : M A) :
  steady body -> steady handler -> steady (try_except body handler).
Proof.
  intros Hb Hh st Hs. unfold try_except. specialize (Hb st Hs).
  destruct (body st) as [[a|x] st1]; simpl in *; auto.
  destruct (is_Exception x); simpl; auto.
Qed.

Lemma steady_emit (o : output) : steady (emit o).
Proof. now intros st Hs. Qed.

Lemma steady_call {A} (q : estate -> outcome A * estate) :
  (forall e, position_of (snd (q e)) = position_of e) -> steady (call q).
Proof.
  intros Hq st Hs. unfold call. specialize (Hq (engine st)).
  destruct (q (engine st)) as [r e1]. unfold synced in *. simpl in *.
  congruence.
Qed.

Lemma steady_show_board : steady show_board.
Proof.
  unfold show_board, print.
  apply steady_try; (apply steady_bind; [apply steady_call|intros; apply steady_emit]).
  - apply get_board_visual_pos.
  - apply get_fen_position_pos.
Qed.

Lemma keeps_ret {A} (a : A) : keeps (ret a).
Proof. apply steady_keeps, steady_ret. Qed.

Lemma keeps_bind {A B} (c : M A) (k : A -> M B) :
  keeps c -> (forall a, keeps (k a)) -> keeps (bind c k).
Proof.
  intros Hc Hk st b st' Hs. unfold bind.
  destruct (c st) as [[a|x] st1] eqn:Hcs; [|discriminate].
  intros Hks. exact (Hk a st1 b st' (Hc st a st1 Hs Hcs) Hks).
Qed.

Lemma keeps_emit (o : output) : keeps (emit o).
Proof. apply steady_keeps, steady_emit. Qed.

Lemma keeps_show_board : keeps show_board.
Proof. apply steady_keeps, steady_show_board. Qed.

Lemma keeps_apply_move_uci (uci_move : string) : keeps (apply_move_uci uci_move).
Proof.
  intros st b st' Hs. unfold apply_move_uci. unfold_prog.
  destruct (is_move_correct uci_move (engine st)) as [[[|]|x] e1] eqn:Hq;
    simpl; try discriminate.
  - destruct (make_moves_from_current_position [uci_move] e1)
      as [[[]|x] e2] eqn:Hm; simpl; try discriminate.
    intros H. inversion H; subst. unfold synced in *. simpl.
    rewrite replay_app, (make_moves_plays _ _ Hm), <- Hs. simpl. f_equal.
    eapply query_position; [apply is_move_correct_pos | exact Hq].
  - intros H. inversion H; subst. unfold synced in *. simpl. rewrite <- Hs.
    eapply query_position; [apply is_move_correct_pos | exact Hq].
Qed.

Lemma keeps_engine_reply (ms : option Z) : keeps (engine_reply ms).
Proof.
  intros st b st' Hs. unfold engine_reply. unfold_prog.
  destruct (best_query ms (engine st)) as [[[best|]|x] e1] eqn:Hq;
    simpl; try discriminate.
  - destruct (make_moves_from_current_position [best] e1)
      as [[[]|x] e2] eqn:Hm; simpl; try discriminate.
    intros H. inversion H; subst. unfold synced in *. simpl.
    rewrite replay_app, (make_moves_plays _ _ Hm), <- Hs. simpl. f_equal.
    eapply query_position; [apply best_query_pos | exact Hq].
  - intros H. inversion H; subst. unfold synced in *. simpl. rewrite <- Hs.
    eapply query_position; [apply best_query_pos | exact Hq].
Qed.

(** Handing the engine the history as it stands brings the two in step,
    whatever they were before. *)
Lemma resync (st : state) (e1 : estate) :
  set_position (moves_history st) (engine st) = (Ok tt, e1) ->
  synced (with_engine e1 st).
Proof. intros Hs. unfold synced. simpl. exact (set_position_replays _ _ Hs). Qed.

Lemma keeps_undo_last_halfmove : keeps undo_last_halfmove.
Proof.
  intros st b st' Hs. unfold undo_last_halfmove. unfold_prog.
  destruct (moves_history st) as [|m h] eqn:Hh.
  - intros H. now inversion H; subst.
  - remember (removelast (m :: h)) as h' eqn:Hh'. cbn.
    destruct (set_position h' (engine st)) as [[[]|x] e1] eqn:Hp;
      try discriminate.
    intros H. inversion H; subst st' b.
    apply (resync (with_history h' st)). exact Hp.
Qed.

Lemma keeps_new_game {A} (k : M A) :
  keeps k -> keeps (set_history [] ;; call (set_position []) ;; k).
Proof.
  intros Hk st b st' _. unfold_prog. simpl.
  destruct (set_position [] (engine st)) as [[[]|x] e1] eqn:Hp; simpl;
    try discriminate.
  apply Hk. apply (resync (with_history [] st)). exact Hp.
Qed.

Lemma keeps_print (s : string) : keeps (print s).
Proof. apply keeps_emit. Qed.

Lemma keeps_clear_screen : keeps clear_screen.
Proof. apply keeps_emit. Qed.

Lemma keeps_query {A} (q : estate -> outcome A * estate) :
  (forall e, position_of (snd (q e)) = position_of e) -> keeps (call q).
Proof. intros Hq. now apply steady_keeps, steady_call. Qed.

Create HintDb keeps.
Hint Resolve keeps_ret keeps_emit keeps_print keeps_clear_screen
  keeps_show_board keeps_apply_move_uci keeps_engine_reply
  keeps_undo_last_halfmove keeps_query get_fen_position_pos
  get_best_move_pos get_evaluation_pos : keeps.

Ltac keeps_step :=
  first [ solve [auto with keeps]
        | apply keeps_new_game
        | apply keeps_bind; [|intros ?]
        | apply steady_keeps, steady_try
        | apply steady_bind; [|intros ?]
        | apply steady_call
        | apply steady_emit
        | match goal with |- context [if ?b then _ else _] => destruct b end ].

Lemma keeps_dispatch (cmd : string) : keeps (dispatch cmd).
Proof. unfold dispatch. repeat keeps_step. Qed.

Lemma keeps_iteration (i : input_event) : keeps (iteration i).
Proof.
  unfold iteration. apply keeps_bind; [apply keeps_emit|intros _].
  destruct i; [apply keeps_dispatch| |]; repeat keeps_step.
Qed.

Lemma keeps_main_loop (inputs : list input_event) : keeps (main_loop inputs).
Proof.
  induction inputs as [|i rest IH]; simpl.
  - apply keeps_bind; [apply keeps_iteration | intros; apply keeps_ret].
  - apply keeps_bind; [apply keeps_iteration | intros [|]];
      [apply keeps_ret | exact IH].
Qed.

Lemma keeps_main (inputs : list input_event) : keeps (main inputs).
Proof.
  unfold main. repeat (apply keeps_bind; [solve [auto with keeps]|intros _]).
  apply keeps_main_loop.
Qed.

(** C1.  Over an engine session that starts at the standard position:
    history and engine agree before the first command; every pass of
    the loop that ends (a move with its reply, [go], [undo], [new],
    [hint], [eval], [fen], [help]) leaves them in agreement if it found
    them so; hence after any sequence of inputs the engine's position is
    the replay of the history from the start, and the FEN the engine
    reports is the FEN of that replay. *)
Theorem history_replay_invariant (e0 : estate) :
  position_of e0 = startpos ->
  synced (initial e0)
  /\
  (forall i st c st',
      synced st -> iteration i st = (Ok c, st') -> synced st')
  /\
  (forall inputs st,
      main inputs (initial e0) = (Ok tt, st) ->
      position_of (engine st) = replay (moves_history st) /\
      forall fen e1,
        get_fen_position (engine st) = (Ok fen, e1) ->
        fen = fen_of (replay (moves_history st))).
Proof.
  intros H0.
  assert (Hi : synced (initial e0)) by exact H0.
  split; [exact Hi|]. split.
  - intros i st c st'. apply keeps_iteration.
  - intros inputs st Hm.
    assert (Hs : synced st) by exact (keeps_main inputs Hi Hm).
    split; [exact Hs|].
    intros fen e1 Hf. rewrite <- Hs. exact (get_fen_position_reports _ Hf).
Qed.

End Correctness.


Section Loop.

Context {E : Engine} {P : Text.PyStr}.

Lemma main_loop_raise (i : input_event) (rest : list input_event)
    (st st' : state) (x : exn) :
  iteration i st = (Raise x, st') ->
  main_loop (i :: rest) st = (Raise x, st').
Proof. intros H. cbn [main_loop]. unfold bind. now rewrite H. Qed.

Lemma main_loop_break (i : input_event) (rest : list input_event)
    (st st' : state) :
  iteration i st = (Ok Break, st') ->
  main_loop (i :: rest) st = (Ok tt, st').
Proof. intros H. cbn [main_loop]. unfold bind. now rewrite H. Qed.

Lemma main_loop_continue (i : input_event) (rest : list input_event)
    (st st' : state) :
  iteration i st = (Ok Continue, st') ->
  main_loop (i :: rest) st = main_loop rest st'.
Proof. intros H. cbn [main_loop]. unfold bind. now rewrite H. Qed.

Definition prompted (st : state) : state :=
  with_stdout (stdout st ++ [Prompt (nl ++ "Your move/command: ")%string]) st.

Lemma iteration_line (l : string) (st : state) :
  iteration (Line l) st = dispatch (Text.normalize l) (prompted st).
Proof. reflexivity. Qed.

Lemma dispatch_quit (cmd : string) (st : state) :
  In cmd ["exit"; "quit"; "q"]%string ->
  dispatch cmd st =
    (Ok Break, with_stdout (stdout st ++ [PrintLine "Thanks for playing!"]) st).
Proof.
  intros [<-|[<-|[<-|[]]]]; reflexivity.
Qed.

(** C10.  A line is dispatched on its stripped, lower-cased form, so it
    behaves as that form does when typed as it is: ["  EXIT "] ends the
    session, [Quit] between an ideographic space (U+3000) and a no-break
    space (U+00A0) is [quit], and ["E2E4"] is the move [e2e4]; and each
    of [exit], [quit] and [q], in any case and with any white space
    around it, prints the farewell and ends the loop without reading
    further input. *)
Theorem input_normalized (line : string) (st : state) :
  iteration (Line line) st = iteration (Line (Text.normalize line)) st
  /\ Text.normalize "  EXIT " = "exit"%string
  /\ Text.normalize "E2E4" = "e2e4"%string
  /\ Text.normalize
       (Text.bytes [227; 128; 128] ++ "Quit" ++ Text.bytes [194; 160])%string
     = "quit"%string
  /\ iteration (Line "E2E4") st =
       (moved <- apply_move_uci "e2e4" ;;
        (if moved then
           clear_screen ;; show_board ;;
           mv <- engine_reply None ;;
           if truthy mv then
             print ("Engine replies: " ++ or_default mv "")%string ;; show_board
           else print "Engine has no reply (checkmate or draw?)."
         else
           print "Invalid input. Use UCI (e.g., e2e4) or type 'help' for commands.") ;;
        ret Continue) (prompted st)
  /\ forall rest,
       In (Text.normalize line) ["exit"; "quit"; "q"]%string ->
       main_loop (Line line :: rest) st =
         (Ok tt,
          with_stdout
            (stdout st ++ [Prompt (nl ++ "Your move/command: ")%string;
                           PrintLine "Thanks for playing!"]) st).
Proof.
  split; [|split; [|split; [|split; [|split]]]].
  - now rewrite !iteration_line, TextFacts.normalize_idem.
  - now rewrite TextFacts.normalize_ascii by reflexivity.
  - now rewrite TextFacts.normalize_ascii by reflexivity.
  - now rewrite TextFacts.normalize_ascii by reflexivity.
  - rewrite iteration_line, TextFacts.normalize_ascii by reflexivity.
    reflexivity.
  - intros rest Hq. apply main_loop_break.
    rewrite iteration_line, dispatch_quit by exact Hq.
    unfold prompted, with_stdout. simpl. now rewrite <- app_assoc.
Qed.

End Loop.

(** ** Errors within a command *)

Section Errors.

Context {E : Engine} {P : Text.PyStr}.

Definition exiting (st : state) : state :=
  with_stdout
    (stdout st ++ [Prompt (nl ++ "Your move/command: ")%string;
                   PrintLine (nl ++ "Exiting…")%string]) st.

Lemma iteration_end (i : input_event) (st : state) :
  i = Eof \/ i = Interrupt -> iteration i st = (Ok Break, exiting st).
Proof.
  intros [->| ->]; unfold iteration, exiting; unfold_prog; simpl;
    now rewrite <- app_assoc.
Qed.

(** C4, as the code has it.  Within a pass of the loop, an [Exception]
    raised by the evaluation query is caught: the message about the
    build is printed and the loop goes on; end of input and an interrupt
    at the prompt end the loop normally.  An error raised by the other
    engine calls of a command (the position query of [fen], the search
    of [hint] and [go], [set_position] of [new] and [undo], the legality
    check of a move) is not caught: the loop ends with that error and
    the remaining input is not read.  A failed resolution of the
    executable ends the script before anything is printed. *)
Theorem command_errors (st : state) (rest : list input_event) :
  (forall x e1,
      get_evaluation (engine st) = (Raise x, e1) ->
      is_Exception x = true ->
      main_loop (Line "eval" :: rest) st =
      main_loop rest
        (with_stdout
           (stdout st ++
              [Prompt (nl ++ "Your move/command: ")%string;
               PrintLine "Your build does not support evaluation output."])
           (with_engine e1 st)))
  /\
  (main_loop (Eof :: rest) st = (Ok tt, exiting st) /\
   main_loop (Interrupt :: rest) st = (Ok tt, exiting st))
  /\
  (forall x e1,
      get_fen_position (engine st) = (Raise x, e1) ->
      main_loop (Line "fen" :: rest) st = (Raise x, with_engine e1 (prompted st)))
  /\
  (forall x e1,
      get_best_move (engine st) = (Raise x, e1) ->
      main_loop (Line "hint" :: rest) st = (Raise x, with_engine e1 (prompted st)) /\
      main_loop (Line "go" :: rest) st = (Raise x, with_engine e1 (prompted st)))
  /\
  (forall x e1,
      set_position [] (engine st) = (Raise x, e1) ->
      main_loop (Line "new" :: rest) st =
        (Raise x, with_engine e1 (with_history [] (prompted st))))
  /\
  (forall h m x e1,
      moves_history st = h ++ [m] ->
      set_position h (engine st) = (Raise x, e1) ->
      main_loop (Line "undo" :: rest) st =
        (Raise x, with_engine e1 (with_history h (prompted st))))
  /\
  (forall x e1,
      is_move_correct "e2e4" (engine st) = (Raise x, e1) ->
      main_loop (Line "e2e4" :: rest) st = (Raise x, with_engine e1 (prompted st)))
  /\
  (forall e0 inputs, script false false e0 inputs = (Raise RuntimeError, [])).
Proof.
  split; [|split; [|split; [|split; [|split; [|split; [|split]]]]]].
  - intros x e1 Hq Hx. apply main_loop_continue.
    rewrite iteration_line.
    rewrite TextFacts.normalize_ascii by reflexivity.
    change (dispatch (Text.lower_ascii (Text.strip "eval")) (prompted st))
      with ((try_except
               (ev <- call get_evaluation ;;
                print ("Evaluation: " ++ repr_evaluation ev)%string)
               (print "Your build does not support evaluation output.") ;;
             ret Continue) (prompted st)).
    unfold_prog. simpl. rewrite Hq. simpl. rewrite Hx. simpl.
    unfold with_stdout, with_engine. simpl. now rewrite <- app_assoc.
  - split; apply main_loop_break, iteration_end; auto.
  - intros x e1 Hq. apply main_loop_raise. rewrite iteration_line.
    rewrite TextFacts.normalize_ascii by reflexivity.
    change (dispatch (Text.lower_ascii (Text.strip "fen")) (prompted st))
      with ((fen <- call get_fen_position ;; print fen ;; ret Continue)
              (prompted st)).
    unfold_prog. simpl. now rewrite Hq.
  - intros x e1 Hq. split; apply main_loop_raise; rewrite iteration_line.
    + rewrite TextFacts.normalize_ascii by reflexivity.
    change (dispatch (Text.lower_ascii (Text.strip "hint")) (prompted st))
        with ((suggestion <- call get_best_move ;;
               print ("Engine suggests: " ++ or_default suggestion "(no move)")%string ;;
               ret Continue) (prompted st)).
      unfold_prog. simpl. now rewrite Hq.
    + rewrite TextFacts.normalize_ascii by reflexivity.
    change (dispatch (Text.lower_ascii (Text.strip "go")) (prompted st))
        with ((mv <- engine_reply None ;;
               clear_screen ;;
               (if truthy mv then
                  print ("Engine plays: " ++ or_default mv "")%string ;; show_board
                else print "Engine has no move (game over?).") ;;
               ret Continue) (prompted st)).
      unfold engine_reply, best_query. unfold_prog. simpl. now rewrite Hq.
  - intros x e1 Hq. apply main_loop_raise. rewrite iteration_line.
    rewrite TextFacts.normalize_ascii by reflexivity.
    change (dispatch (Text.lower_ascii (Text.strip "new")) (prompted st))
      with ((set_history [] ;; call (set_position []) ;;
             clear_screen ;; show_board ;; ret Continue) (prompted st)).
    unfold_prog. simpl. now rewrite Hq.
  - intros h m x e1 Hh Hq. apply main_loop_raise. rewrite iteration_line.
    rewrite TextFacts.normalize_ascii by reflexivity.
    change (dispatch (Text.lower_ascii (Text.strip "undo")) (prompted st))
      with ((undone <- undo_last_halfmove ;;
             (if undone then clear_screen ;; show_board
              else print "Nothing to undo.") ;;
             ret Continue) (prompted st)).
    unfold undo_last_halfmove. unfold_prog.
    change (moves_history (prompted st)) with (moves_history st).
    change (engine (prompted st)) with (engine st).
    rewrite Hh. destruct (h ++ [m]) as [|a l] eqn:Hl.
    + now destruct h.
    + rewrite <- Hl, removelast_app, app_nil_r by discriminate.
      cbn. now rewrite Hq.
  - intros x e1 Hq. apply main_loop_raise. rewrite iteration_line.
    rewrite TextFacts.normalize_ascii by reflexivity.
    change (dispatch (Text.lower_ascii (Text.strip "e2e4")) (prompted st))
      with ((moved <- apply_move_uci "e2e4" ;;
             (if moved then
                clear_screen ;; show_board ;;
                mv <- engine_reply None ;;
                if truthy mv then
                  print ("Engine replies: " ++ or_default mv "")%string ;; show_board
                else print "Engine has no reply (checkmate or draw?)."
              else
                print "Invalid input. Use UCI (e.g., e2e4) or type 'help' for commands.") ;;
             ret Continue) (prompted st)).
    unfold apply_move_uci. unfold_prog. simpl. now rewrite Hq.
  - reflexivity.
Qed.

End Errors.

(** ** The theorems on the small engine *)

Module Runs.

Lemma history_replay_witness :
  let st := snd (@main (Toy.session Toy.full) TextFacts.ascii_only Toy.game (Toy.start Toy.full)) in
  moves_history st = ["g1f3"; "e7e5"]%string /\
  @position_of (Toy.session Toy.full) (Toy.chess Toy.full) (engine st) = replay (moves_history st).
Proof.
  split; [reflexivity|].
  destruct (@history_replay_invariant (Toy.session Toy.full) (Toy.chess Toy.full) TextFacts.ascii_only Toy.fresh eq_refl) as (_ & _ & H).
  apply (H Toy.game). vm_compute. reflexivity.
Defined.

Lemma apply_move_uci_witness :
  @apply_move_uci (Toy.session Toy.full) "e2e5" (Toy.start Toy.full) =
    (Ok false, with_engine (Toy.at_call 1 []) (Toy.start Toy.full))
  /\
  @apply_move_uci (Toy.session Toy.full) "e2e4" (Toy.start Toy.full) =
    (Ok true,
     {| engine := (Toy.at_call 2 ["e2e4"]%string);
        moves_history := ["e2e4"]%string;
        stdout := [] |}).
Proof.
  split.
  - destruct (@apply_move_uci_spec (Toy.session Toy.full) (Toy.chess Toy.full) "e2e5"%string (Toy.start Toy.full))
      as [Hno _].
    edestruct Hno as (Heq & _); [reflexivity | exact Heq].
  - destruct (@apply_move_uci_spec (Toy.session Toy.full) (Toy.chess Toy.full) "e2e4"%string (Toy.start Toy.full))
      as [_ Hyes].
    edestruct Hyes as (Heq & _); [reflexivity | reflexivity | exact Heq].
Defined.

Lemma undo_last_halfmove_witness :
  @undo_last_halfmove (Toy.session Toy.full) (Toy.start Toy.full) = (Ok false, Toy.start Toy.full)
  /\
  @undo_last_halfmove (Toy.session Toy.full) Toy.two_moves =
    (Ok true,
     {| engine := (Toy.at_call 8 ["e2e4"]%string);
        moves_history := ["e2e4"]%string;
        stdout := [] |}).
Proof.
  split.
  - destruct (@undo_last_halfmove_spec (Toy.session Toy.full) (Toy.chess Toy.full) (Toy.start Toy.full)) as [Hno _].
    apply Hno. reflexivity.
  - destruct (@undo_last_halfmove_spec (Toy.session Toy.full) (Toy.chess Toy.full) Toy.two_moves) as [_ Hyes].
    edestruct (Hyes ["e2e4"]%string "e7e5"%string) as (Heq & _);
      [reflexivity | reflexivity | exact Heq].
Defined.

Lemma engine_reply_witness :
  @engine_reply (Toy.session Toy.full) None Toy.game_over =
    (Ok None,
     with_engine
       (Toy.at_call 10 ["e2e4"; "e7e5"; "g1f3"; "b8c6"]%string)
       Toy.game_over)
  /\
  @engine_reply (Toy.session Toy.full) None Toy.two_moves =
    (Ok (Some "e7e5"%string),
     {| engine := (Toy.at_call 9 ["e2e4"; "e7e5"; "e7e5"]%string);
        moves_history := ["e2e4"; "e7e5"; "e7e5"]%string;
        stdout := [] |}).
Proof.
  split.
  - destruct (@engine_reply_spec (Toy.session Toy.full) (Toy.chess Toy.full) None Toy.game_over) as [Hnone _].
    edestruct Hnone as (Heq & _); [reflexivity | exact Heq].
  - destruct (@engine_reply_spec (Toy.session Toy.full) (Toy.chess Toy.full) None Toy.two_moves) as [_ Hsome].
    edestruct Hsome as (Heq & _); [reflexivity | reflexivity | exact Heq].
Defined.

Lemma engine_reply_query_witness :
  @engine_reply (Toy.session Toy.full) (Some 250%Z) Toy.two_moves =
    (Ok (Some "g8f6"%string),
     {| engine := Toy.at_call 9 ["e2e4"; "e7e5"; "g8f6"]%string;
        moves_history := ["e2e4"; "e7e5"; "g8f6"]%string;
        stdout := [] |})
  /\
  @engine_reply (Toy.session Toy.full) None Toy.two_moves =
    (Ok (Some "e7e5"%string),
     {| engine := Toy.at_call 9 ["e2e4"; "e7e5"; "e7e5"]%string;
        moves_history := ["e2e4"; "e7e5"; "e7e5"]%string;
        stdout := [] |}).
Proof.
  split.
  - destruct (@engine_reply_query (Toy.session Toy.full) (Some 250%Z)
                Toy.two_moves) as [Ht _].
    destruct (Ht 250%Z eq_refl) as (_ & _ & Hb); [discriminate|].
    erewrite Hb; reflexivity.
  - destruct (@engine_reply_query (Toy.session Toy.full) None Toy.two_moves)
      as [_ Hd].
    destruct Hd as (_ & _ & Hb); [left; reflexivity|].
    erewrite Hb; reflexivity.
Defined.

(** With a budget of zero the timed search would answer [g8f6] and the
    engine would play it, but [engine_reply] plays and returns [e7e5],
    the move of the fixed-depth search. *)
Lemma engine_reply_zero_budget :
  @get_best_move_time (Toy.session Toy.full) 0%Z Toy.fresh =
    (Ok (Some "g8f6"%string), Toy.at_call 1 []) /\
  @make_moves_from_current_position (Toy.session Toy.full) ["g8f6"%string]
    (Toy.at_call 1 []) = (Ok tt, Toy.at_call 2 ["g8f6"%string]) /\
  fst (@engine_reply (Toy.session Toy.full) (Some 0%Z) (Toy.start Toy.full))
    = Ok (Some "e7e5"%string) /\
  ~ (forall (E : Engine) (t : Z) (st : @state E) b e1 e2,
        @get_best_move_time E t (engine st) = (Ok (Some b), e1) ->
        @make_moves_from_current_position E [b] e1 = (Ok tt, e2) ->
        @engine_reply E (Some t) st =
          (Ok (Some b),
           with_history (moves_history st ++ [b]) (with_engine e2 st))).
Proof.
  split; [reflexivity|]. split; [reflexivity|]. split; [reflexivity|].
  intros H.
  specialize (H (Toy.session Toy.full) 0%Z (Toy.start Toy.full)
                "g8f6"%string (Toy.at_call 1 []) (Toy.at_call 2 ["g8f6"%string])
                eq_refl eq_refl).
  vm_compute in H. discriminate H.
Qed.

Lemma show_board_witness :
  @show_board (Toy.session Toy.full) (Toy.start Toy.full) =
    (Ok tt,
     {| engine := (Toy.at_call 1 []);
        moves_history := [];
        stdout := [PrintLine "board: startpos"] |})
  /\
  @show_board (Toy.session Toy.bare) (Toy.start Toy.bare) =
    (Ok tt,
     {| engine := (Toy.at_call 2 []);
        moves_history := [];
        stdout := [PrintLine (nl ++ "Current FEN:" ++ nl ++ " startpos")%string] |})
  /\
  exists y e1 e2,
    @get_board_visual (Toy.session (Toy.dying 0)) Toy.fresh = (Raise y, e1) /\
    @get_fen_position (Toy.session (Toy.dying 0)) e1 = (Raise StockfishException, e2).
Proof.
  split; [|split].
  - destruct (@show_board_spec (Toy.session Toy.full) (Toy.start Toy.full)) as (Hok & _ & _).
    erewrite Hok; reflexivity.
  - destruct (@show_board_spec (Toy.session Toy.bare) (Toy.start Toy.bare)) as (_ & Hfen & _).
    erewrite Hfen; reflexivity.
  - destruct (@show_board_spec (Toy.session (Toy.dying 0)) (Toy.start (Toy.dying 0)))
      as (_ & _ & Hraise).
    edestruct Hraise as (y & e1 & Hv & [[Hy _]|[_ [e2 Hf]]]); [reflexivity| |].
    + exfalso. cbv in Hv. inversion Hv; subst. discriminate Hy.
    + exists y, e1, e2. split; [exact Hv | exact Hf].
Defined.

(** On an engine whose process is gone both the rendering and the
    position query of the fallback raise, and so does [show_board]. *)
Lemma show_board_raises :
  @show_board (Toy.session (Toy.dying 0)) (Toy.start (Toy.dying 0)) =
    (Raise StockfishException,
     with_engine (Toy.at_call 2 []) (Toy.start (Toy.dying 0)))
  /\
  ~ (forall (E : Engine) (st : @state E),
        exists st', @show_board E st = (Ok tt, st')).
Proof.
  split; [reflexivity|].
  intros H. destruct (H (Toy.session (Toy.dying 0)) (Toy.start (Toy.dying 0))) as [st' Hst].
  discriminate Hst.
Qed.

Lemma eval_unsupported_witness :
  @dispatch (Toy.session Toy.bare) "eval" (Toy.start Toy.bare) =
    (Ok Continue,
     {| engine := (Toy.at_call 1 []);
        moves_history := [];
        stdout := [PrintLine "Your build does not support evaluation output."] |}).
Proof.
  edestruct (@eval_unsupported (Toy.session Toy.bare) (Toy.chess Toy.bare) TextFacts.ascii_only (Toy.start Toy.bare)) as (Heq & _);
    [reflexivity | reflexivity | exact Heq].
Defined.

Lemma new_game_witness :
  moves_history (snd (@dispatch (Toy.session Toy.full) "new" Toy.two_moves)) = [] /\
  Toy.played (engine (snd (@dispatch (Toy.session Toy.full) "new" Toy.two_moves))) = [].
Proof.
  destruct (@new_game_spec (Toy.session Toy.full) (Toy.chess Toy.full) Toy.two_moves) as (Hh & _ & Hok).
  split; [exact Hh|].
  edestruct Hok as (_ & _ & Hp); [reflexivity | exact Hp].
Defined.

Lemma input_normalized_witness :
  @main_loop (Toy.session Toy.full) TextFacts.ascii_only
    [Line ("  EXIT" ++ Text.bytes [194; 160]); Line "e2e4"]%string
    (Toy.start Toy.full) =
    (Ok tt,
     {| engine := Toy.at_call 0 [];
        moves_history := [];
        stdout := [Prompt (nl ++ "Your move/command: ")%string;
                   PrintLine "Thanks for playing!"] |}).
Proof.
  destruct (@input_normalized (Toy.session Toy.full) TextFacts.ascii_only
              ("  EXIT" ++ Text.bytes [194; 160])%string (Toy.start Toy.full))
    as (_ & _ & _ & _ & _ & Hq).
  rewrite Hq; [reflexivity | left; reflexivity].
Defined.

Lemma command_errors_witness :
  fst (@main_loop (Toy.session Toy.bare) TextFacts.ascii_only [Line "eval"; Line "fen"]%string (Toy.start Toy.bare)) = Ok tt
  /\
  @main_loop (Toy.session (Toy.dying 0)) TextFacts.ascii_only [Line "fen"; Line "e2e4"]%string (Toy.start (Toy.dying 0)) =
    (Raise StockfishException,
     with_engine (Toy.at_call 1 [])
       (prompted (Toy.start (Toy.dying 0)))).
Proof.
  split.
  - destruct (@command_errors (Toy.session Toy.bare) TextFacts.ascii_only (Toy.start Toy.bare) [Line "fen"]%string)
      as (Hev & _).
    erewrite Hev; reflexivity.
  - destruct (@command_errors (Toy.session (Toy.dying 0)) TextFacts.ascii_only (Toy.start (Toy.dying 0))
                [Line "e2e4"]%string) as (_ & _ & Hfen & _).
    apply Hfen. reflexivity.
Defined.

(** The executable was found and the session started; the process dies
    after three calls and the second [fen] ends the script with the
    engine's error: the command after it is never read. *)
Lemma command_error_escapes :
  @script (Toy.session (Toy.dying 3)) TextFacts.ascii_only true false Toy.fresh
    [Line "fen"; Line "hint"; Line "fen"; Line "e2e4"]%string
  = (Raise StockfishException,
     [ClearScreen;
      PrintLine "♟ Chess CLI with Stockfish (UCI). White moves first.";
      PrintLine help_text;
      PrintLine "board: startpos";
      Prompt (nl ++ "Your move/command: ")%string;
      PrintLine "startpos";
      Prompt (nl ++ "Your move/command: ")%string;
      PrintLine "Engine suggests: e7e5";
      Prompt (nl ++ "Your move/command: ")%string])
  /\
  ~ (forall (E : Engine) (P : Text.PyStr) (inputs : list input_event)
        (st : @state E),
        exists st', @main_loop E P inputs st = (Ok tt, st')).
Proof.
  split; [reflexivity|].
  intros H.
  destruct (H (Toy.session (Toy.dying 0)) TextFacts.ascii_only
              [Line "fen"]%string (Toy.start (Toy.dying 0)))
    as [st' Hst].
  discriminate Hst.
Qed.

End Runs.


(** * What a command does to the game *)

(** The commands the loop knows; any other line is taken for a move. *)
Definition keywords : list string :=
  ["exit"; "quit"; "q"; "help"; "new"; "undo"; "fen"; "hint"; "go"; "eval"]%string.

Section Effects.

Context {E : Engine} {C : ChessEngine E}.

(** [extended l st st']: from [st] to [st'] the moves [l] were added at
    the end of the history and played on the engine's position. *)
Definition extended (l : list string) (st st' : state) : Prop :=
  moves_history st' = moves_history st ++ l /\
  position_of (engine st') = fold_left play l (position_of (engine st)).

(** [unmoved c]: however [c] ends, history and position are as before. *)
Definition unmoved {A} (c : M A) : Prop :=
  forall st, extended [] st (snd (c st)).

Lemma extended_refl (st : state) : extended [] st st.
Proof. split; [now rewrite app_nil_r | reflexivity]. Qed.

Lemma extended_trans (l1 l2 : list string) (st st1 st2 : state) :
  extended l1 st st1 -> extended l2 st1 st2 -> extended (l1 ++ l2) st st2.
Proof.
  intros [Hh1 Hp1] [Hh2 Hp2]. split.
  - now rewrite Hh2, Hh1, app_assoc.
  - now rewrite Hp2, Hp1, fold_left_app.
Qed.

Lemma extended_stdout (l : list string) (o : list output) (st st' : state) :
  extended l st st' -> extended l st (with_stdout o st').
Proof. now intros H. Qed.

Lemma bind_ok {A B} (c : M A) (k : A -> M B) (st st' : state) (b : B) :
  bind c k st = (Ok b, st') ->
  exists a st1, c st = (Ok a, st1) /\ k a st1 = (Ok b, st').
Proof.
  unfold bind. destruct (c st) as [[a|x] st1]; [|discriminate].
  intros H. now exists a, st1.
Qed.

Lemma unmoved_ret {A} (a : A) : unmoved (ret a).
Proof. intros st. apply extended_refl. Qed.

Lemma unmoved_emit (o : output) : unmoved (emit o).
Proof. intros st. apply extended_stdout, extended_refl. Qed.

Lemma unmoved_call {A} (q : estate -> outcome A * estate) :
  (forall e, position_of (snd (q e)) = position_of e) -> unmoved (call q).
Proof.
  intros Hq st. unfold call. specialize (Hq (engine st)).
  destruct (q (engine st)) as [r e1]. split; simpl in *;
    [now rewrite app_nil_r | exact Hq].
Qed.

Lemma unmoved_bind {A B} (c : M A) (k : A -> M B) :
  unmoved c -> (forall a, unmoved (k a)) -> unmoved (bind c k).
Proof.
  intros Hc Hk st. unfold bind. specialize (Hc st).
  destruct (c st) as [[a|x] st1]; simpl in *; [|exact Hc].
  exact (extended_trans Hc (Hk a st1)).
Qed.

Lemma unmoved_try {A} (body handler : M A) :
  unmoved body -> unmoved handler -> unmoved (try_except body handler).
Proof.
  intros Hb Hh st. unfold try_except. specialize (Hb st).
  destruct (body st) as [[a|x] st1]; simpl in *; [exact Hb|].
  destruct (is_Exception x); simpl; [|exact Hb].
  exact (extended_trans Hb (Hh st1)).
Qed.

Lemma unmoved_show_board : unmoved show_board.
Proof.
  unfold show_board, print.
  apply unmoved_try;
    (apply unmoved_bind; [apply unmoved_call | intros; apply unmoved_emit]).
  - apply get_board_visual_pos.
  - apply get_fen_position_pos.
Qed.

Lemma unmoved_ok {A} (c : M A) (st st' : state) (r : outcome A) :
  unmoved c -> c st = (r, st') -> extended [] st st'.
Proof. intros Hc Heq. specialize (Hc st). now rewrite Heq in Hc. Qed.

Ltac unmoved_step :=
  match goal with
  | |- unmoved show_board => apply unmoved_show_board
  | |- unmoved (ret _) => apply unmoved_ret
  | |- unmoved (emit _) => apply unmoved_emit
  | |- unmoved (bind _ _) => apply unmoved_bind; [|intros ?]
  | |- unmoved (try_except _ _) => apply unmoved_try
  | |- unmoved (call _) => apply unmoved_call
  end.

(** X1.  The commands that only look: [exit], [quit], [q], [help], [fen],
    [hint] and [eval] leave the history and the engine's position as they
    were, whatever the engine answers and also when the command ends in
    an error. *)
Theorem looking_commands_change_nothing (cmd : string) (st : state) :
  In cmd ["exit"; "quit"; "q"; "help"; "fen"; "hint"; "eval"]%string ->
  moves_history (snd (dispatch cmd st)) = moves_history st /\
  position_of (engine (snd (dispatch cmd st))) = position_of (engine st).
Proof.
  intros Hin.
  assert (Hu : unmoved (dispatch cmd)).
  { simpl in Hin.
    repeat (destruct Hin as [<-|Hin]; [|]); try contradiction;
      cbv beta delta [dispatch];
      cbn [String.eqb Ascii.eqb Bool.eqb orb];
      unfold print, clear_screen; repeat unmoved_step;
      auto using get_fen_position_pos, get_best_move_pos, get_evaluation_pos. }
  destruct (Hu st) as [Hh Hp]. rewrite app_nil_r in Hh. now split.
Qed.

(** ** Moves *)

Lemma apply_move_uci_inv (m : string) (st st' : state) (b : bool) :
  apply_move_uci m st = (Ok b, st') ->
  extended (if b then [m] else []) st st' /\
  stdout st' = stdout st /\
  exists e1, is_move_correct m (engine st) = (Ok b, e1).
Proof.
  unfold apply_move_uci. unfold_prog.
  destruct (is_move_correct m (engine st)) as [[[|]|x] e1] eqn:Hq; simpl;
    try discriminate.
  - destruct (make_moves_from_current_position [m] e1) as [[[]|x] e2] eqn:Hm;
      simpl; try discriminate.
    intros H. inversion H; subst. repeat split; simpl; [|now exists e1].
    rewrite (make_moves_plays _ _ Hm). simpl. f_equal.
    eapply query_position; [apply is_move_correct_pos | exact Hq].
  - intros H. inversion H; subst. repeat split; simpl.
    + now rewrite app_nil_r.
    + eapply query_position; [apply is_move_correct_pos | exact Hq].
    + now exists e1.
Qed.

Lemma engine_reply_inv (ms : option Z) (st st' : state) (o : option string) :
  engine_reply ms st = (Ok o, st') ->
  extended (match o with Some b => [b] | None => [] end) st st' /\
  stdout st' = stdout st /\
  exists e1, best_query ms (engine st) = (Ok o, e1).
Proof.
  unfold engine_reply. unfold_prog.
  destruct (best_query ms (engine st)) as [[[b|]|x] e1] eqn:Hq; simpl;
    try discriminate.
  - destruct (make_moves_from_current_position [b] e1) as [[[]|x] e2] eqn:Hm;
      simpl; try discriminate.
    intros H. inversion H; subst. repeat split; simpl; [|now exists e1].
    rewrite (make_moves_plays _ _ Hm). simpl. f_equal.
    eapply query_position; [apply best_query_pos | exact Hq].
  - intros H. inversion H; subst. repeat split; simpl.
    + now rewrite app_nil_r.
    + eapply query_position; [apply best_query_pos | exact Hq].
    + now exists e1.
Qed.

Lemma undo_last_halfmove_inv (st st' : state) (b : bool) :
  undo_last_halfmove st = (Ok b, st') ->
  stdout st' = stdout st /\
  (b = false /\ moves_history st = [] /\ st' = st
   \/
   b = true /\ moves_history st <> [] /\
   moves_history st' = removelast (moves_history st) /\
   position_of (engine st') = replay (moves_history st')).
Proof.
  unfold undo_last_halfmove. unfold_prog.
  destruct (moves_history st) as [|m h] eqn:Hh.
  - intros H. inversion H; subst. split; [reflexivity|]. now left.
  - remember (removelast (m :: h)) as h' eqn:Hh'. cbn.
    destruct (set_position h' (engine st)) as [[[]|x] e1] eqn:Hp;
      try discriminate.
    intros H. inversion H; subst st' b. split; [reflexivity|]. right.
    repeat split; simpl; [discriminate|].
    exact (set_position_replays _ _ Hp).
Qed.

Lemma dispatch_move (cmd : string) :
  ~ In cmd keywords ->
  dispatch cmd =
    (moved <- apply_move_uci cmd ;;
     (if moved then
        clear_screen ;; show_board ;;
        mv <- engine_reply None ;;
        if truthy mv then
          print ("Engine replies: " ++ or_default mv "")%string ;; show_board
        else print "Engine has no reply (checkmate or draw?)."
      else
        print "Invalid input. Use UCI (e.g., e2e4) or type 'help' for commands.") ;;
     ret Continue).
Proof.
  intros Hk. unfold dispatch.
  repeat match goal with
         | |- context [String.eqb cmd ?k] =>
             destruct (String.eqb_spec cmd k) as [->|_];
             [exfalso; apply Hk; simpl; tauto|]
         end.
  reflexivity.
Qed.

(** X2.  A line that is not a command is a move.  When the pass ends, either
    the engine found the move incorrect, and then history and position are
    as before and the last line printed says the input is invalid; or the
    engine found it correct, and then the history has gained the move
    followed by at most one reply of the engine, both played on the
    engine's position in that order. *)
Theorem user_move_effect (cmd : string) (st st' : state) (c : control) :
  ~ In cmd keywords ->
  dispatch cmd st = (Ok c, st') ->
  c = Continue /\
  ((exists e1, is_move_correct cmd (engine st) = (Ok false, e1)) /\
   extended [] st st' /\
   stdout st' = stdout st ++
     [PrintLine "Invalid input. Use UCI (e.g., e2e4) or type 'help' for commands."]
   \/
   (exists e1, is_move_correct cmd (engine st) = (Ok true, e1)) /\
   exists reply, List.length reply <= 1 /\ extended (cmd :: reply) st st').
Proof.
  intros Hk. rewrite (dispatch_move Hk). intros H.
  apply bind_ok in H. destruct H as (moved & st1 & Hm & H).
  apply bind_ok in H. destruct H as ([] & st2 & H & Hr).
  inversion Hr; subst c st2. split; [reflexivity|].
  apply apply_move_uci_inv in Hm. destruct Hm as (Hx1 & Ho1 & Hq).
  destruct moved.
  - right. split; [exact Hq|].
    apply bind_ok in H. destruct H as ([] & st3 & Hc & H).
    apply bind_ok in H. destruct H as ([] & st4 & Hb & H).
    apply bind_ok in H. destruct H as (mv & st5 & He & H).
    eapply unmoved_ok in Hc; [|apply unmoved_emit].
    eapply unmoved_ok in Hb; [|apply unmoved_show_board].
    apply engine_reply_inv in He. destruct He as (Hx5 & _ & _).
    assert (Hl : extended [] st5 st').
    { destruct (truthy mv).
      - eapply unmoved_ok; [|exact H].
        apply unmoved_bind; [apply unmoved_emit|intros; apply unmoved_show_board].
      - eapply unmoved_ok; [apply unmoved_emit | exact H]. }
    exists (match mv with Some b => [b] | None => [] end).
    split; [destruct mv; simpl; lia|].
    pose proof (extended_trans Hx1
                  (extended_trans Hc
                     (extended_trans Hb (extended_trans Hx5 Hl)))) as Hall.
    simpl in Hall. now rewrite app_nil_r in Hall.
  - left. split; [exact Hq|].
    unfold print, emit in H. inversion H; subst st'. split.
    + apply extended_stdout. exact Hx1.
    + simpl. now rewrite Ho1.
Qed.

(** X3.  [go]: when the pass ends, the history has gained exactly the move
    the fixed-depth search returned, played on the engine's position, or
    nothing when the search returned no move; in that case the screen is
    cleared and the line about the engine having no move is printed. *)
Theorem go_effect (st st' : state) (c : control) :
  dispatch "go" st = (Ok c, st') ->
  c = Continue /\
  exists o e1,
    get_best_move (engine st) = (Ok o, e1) /\
    extended (match o with Some b => [b] | None => [] end) st st' /\
    (o = None ->
     stdout st' = stdout st ++
       [ClearScreen; PrintLine "Engine has no move (game over?)."]).
Proof.
  change (dispatch "go" st)
    with ((mv <- engine_reply None ;;
           clear_screen ;;
           (if truthy mv then
              print ("Engine plays: " ++ or_default mv "")%string ;; show_board
            else print "Engine has no move (game over?).") ;;
           ret Continue) st).
  intros H.
  apply bind_ok in H. destruct H as (mv & st1 & He & H).
  apply bind_ok in H. destruct H as ([] & st2 & Hc & H).
  apply bind_ok in H. destruct H as ([] & st3 & H & Hr).
  inversion Hr; subst c st3. split; [reflexivity|].
  apply engine_reply_inv in He. destruct He as (Hx & Ho & e1 & Hq).
  exists mv, e1. split; [exact Hq|]. split.
  - assert (Hl : extended [] st2 st').
    { destruct (truthy mv).
      - eapply unmoved_ok; [|exact H].
        apply unmoved_bind; [apply unmoved_emit|intros; apply unmoved_show_board].
      - eapply unmoved_ok; [apply unmoved_emit | exact H]. }
    eapply unmoved_ok in Hc; [|apply unmoved_emit].
    pose proof (extended_trans Hx (extended_trans Hc Hl)) as Hall.
    now rewrite !app_nil_r in Hall.
  - intros ->. simpl in H. unfold clear_screen, print, emit in *.
    inversion Hc; subst st2. inversion H; subst st'. simpl.
    now rewrite Ho, <- app_assoc.
Qed.

(** X4.  [undo] as a command: when the pass ends on an empty history, the
    only change is the line saying there is nothing to undo; on a history
    that is not empty the last move is gone and the engine is in the
    position replayed from what is left. *)
Theorem undo_command_effect (st st' : state) (c : control) :
  dispatch "undo" st = (Ok c, st') ->
  c = Continue /\
  (moves_history st = [] ->
   st' = with_stdout (stdout st ++ [PrintLine "Nothing to undo."]) st) /\
  (moves_history st <> [] ->
   moves_history st' = removelast (moves_history st) /\
   position_of (engine st') = replay (moves_history st')).
Proof.
  change (dispatch "undo" st)
    with ((undone <- undo_last_halfmove ;;
           (if undone then clear_screen ;; show_board
            else print "Nothing to undo.") ;;
           ret Continue) st).
  intros H.
  apply bind_ok in H. destruct H as (undone & st1 & Hu & H).
  apply bind_ok in H. destruct H as ([] & st2 & H & Hr).
  inversion Hr; subst c st2. split; [reflexivity|].
  apply undo_last_halfmove_inv in Hu.
  destruct Hu as (Ho & [(-> & Hh & ->)|(-> & Hh & Hh' & Hp)]).
  - split; [|intros Hne; contradiction].
    intros _. unfold print, emit in H. now inversion H.
  - split; [intros He; contradiction|]. intros _.
    assert (Hl : extended [] st1 st').
    { eapply unmoved_ok; [|exact H].
      apply unmoved_bind; [apply unmoved_emit|intros; apply unmoved_show_board]. }
    destruct Hl as [Hlh Hlp]. rewrite app_nil_r in Hlh. simpl in Hlp.
    now rewrite Hlh, Hlp.
Qed.

(** X5.  A move taken back: after [apply_move_uci] has accepted a move, or
    [engine_reply] has played one, [undo_last_halfmove] gives back the
    history as it was before the move; and if history and engine agreed
    before the move, the engine is back in the position it had then. *)
Theorem move_then_undo (st st1 st2 : state) :
  ((exists m, apply_move_uci m st = (Ok true, st1)) \/
   (exists ms b, engine_reply ms st = (Ok (Some b), st1))) ->
  undo_last_halfmove st1 = (Ok true, st2) ->
  moves_history st2 = moves_history st /\
  (synced st -> position_of (engine st2) = position_of (engine st)).
Proof.
  intros Hmove Hu.
  assert (Hx : exists m, extended [m] st st1).
  { destruct Hmove as [[m Hm]|(ms & b & Hm)].
    - exists m. now apply apply_move_uci_inv in Hm.
    - exists b. now apply engine_reply_inv in Hm. }
  destruct Hx as (m & Hh & _).
  apply undo_last_halfmove_inv in Hu.
  destruct Hu as (_ & [(Hf & _)|(_ & _ & Hh2 & Hp2)]); [discriminate|].
  rewrite Hh, removelast_last in Hh2. split; [exact Hh2|].
  intros Hs. now rewrite Hp2, Hh2.
Qed.

End Effects.

(** ** How fast the history grows *)

Section Growth.

Context {E : Engine} {C : ChessEngine E} {P : Text.PyStr}.

(** [grows n c]: when [c] returns, the history is at most [n] longer. *)
Definition grows {A} (n : nat) (c : M A) : Prop :=
  forall st a st',
    c st = (Ok a, st') ->
    List.length (moves_history st') <= List.length (moves_history st) + n.

Lemma grows_extended (l : list string) (st st' : state) :
  extended l st st' ->
  List.length (moves_history st') = List.length (moves_history st) + List.length l.
Proof. intros [Hh _]. now rewrite Hh, length_app. Qed.

Lemma grows_unmoved {A} (n : nat) (c : M A) : unmoved c -> grows n c.
Proof.
  intros Hc st a st' Heq. eapply unmoved_ok in Heq; [|exact Hc].
  apply grows_extended in Heq. simpl in Heq. lia.
Qed.

Lemma grows_bind {A B} (n m p : nat) (c : M A) (k : A -> M B) :
  grows n c -> (forall a, grows m (k a)) -> n + m <= p -> grows p (bind c k).
Proof.
  intros Hc Hk Hp st b st' H. apply bind_ok in H.
  destruct H as (a & st1 & H1 & H2).
  apply Hc in H1. apply Hk in H2. lia.
Qed.

Lemma grows_apply_move_uci (m : string) : grows 1 (apply_move_uci m).
Proof.
  intros st b st' H. apply apply_move_uci_inv in H. destruct H as (Hx & _).
  apply grows_extended in Hx. destruct b; simpl in Hx; lia.
Qed.

Lemma grows_engine_reply (ms : option Z) : grows 1 (engine_reply ms).
Proof.
  intros st o st' H. apply engine_reply_inv in H. destruct H as (Hx & _).
  apply grows_extended in Hx. destruct o; simpl in Hx; lia.
Qed.

Lemma length_removelast_le (l : list string) :
  List.length (removelast l) <= List.length l.
Proof.
  induction l as [|x l IH]; [apply le_n|].
  destruct l as [|y l]; [simpl; lia|].
  change (removelast (x :: y :: l)) with (x :: removelast (y :: l)).
  simpl in *. lia.
Qed.

Lemma grows_undo_last_halfmove : grows 0 undo_last_halfmove.
Proof.
  intros st b st' H. apply undo_last_halfmove_inv in H.
  destruct H as (_ & [(_ & _ & ->)|(_ & _ & Hh & _)]); [lia|].
  rewrite Hh. pose proof (length_removelast_le (moves_history st)). lia.
Qed.

Lemma grows_new_game {A} (n : nat) (k : M A) :
  unmoved k -> grows n (set_history [] ;; call (set_position []) ;; k).
Proof.
  intros Hk st a st' H. unfold_prog. simpl in H.
  destruct (set_position [] (engine st)) as [[[]|x] e1]; simpl in H;
    try discriminate.
  eapply unmoved_ok in H; [|exact Hk]. apply grows_extended in H.
  simpl in H. lia.
Qed.

Ltac unmoved_auto :=
  unfold print, clear_screen, prompt;
  repeat match goal with
         | |- unmoved show_board => apply unmoved_show_board
         | |- unmoved (ret _) => apply unmoved_ret
         | |- unmoved (emit _) => apply unmoved_emit
         | |- unmoved (bind _ _) => apply unmoved_bind; [|intros ?]
         | |- unmoved (try_except _ _) => apply unmoved_try
         | |- unmoved (call _) => apply unmoved_call
         end;
  auto using get_fen_position_pos, get_best_move_pos, get_evaluation_pos.

Lemma grows_dispatch (cmd : string) : grows 2 (dispatch cmd).
Proof.
  unfold dispatch.
  repeat match goal with
         | |- context [if ?b then _ else _] =>
             match b with
             | context [String.eqb] => destruct b
             end
         end.
  - apply grows_unmoved. unmoved_auto.
  - apply grows_unmoved. unmoved_auto.
  - apply grows_new_game. unmoved_auto.
  - apply (@grows_bind _ _ 0 0); [apply grows_undo_last_halfmove| |lia].
    intros []; apply grows_unmoved; unmoved_auto.
  - apply grows_unmoved. unmoved_auto.
  - apply grows_unmoved. unmoved_auto.
  - apply (@grows_bind _ _ 1 0); [apply grows_engine_reply| |lia].
    intros mv. apply grows_unmoved. destruct (truthy mv); unmoved_auto.
  - apply grows_unmoved. unmoved_auto.
  - apply (@grows_bind _ _ 1 1); [apply grows_apply_move_uci| |lia].
    intros [|]; [|apply grows_unmoved; unmoved_auto].
    apply (@grows_bind _ _ 1 0); [|intros; apply grows_unmoved, unmoved_ret|lia].
    apply (@grows_bind _ _ 0 1); [apply grows_unmoved; unmoved_auto| |lia].
    intros _.
    apply (@grows_bind _ _ 0 1); [apply grows_unmoved; unmoved_auto| |lia].
    intros _.
    apply (@grows_bind _ _ 1 0); [apply grows_engine_reply| |lia].
    intros mv. apply grows_unmoved. destruct (truthy mv); unmoved_auto.
Qed.

Lemma grows_iteration (i : input_event) : grows 2 (iteration i).
Proof.
  unfold iteration.
  apply (@grows_bind _ _ 0 2); [apply grows_unmoved; unmoved_auto| |lia].
  intros _. destruct i; [apply grows_dispatch| |];
    apply grows_unmoved; unmoved_auto.
Qed.

Lemma grows_main_loop (inputs : list input_event) :
  grows (2 * List.length inputs) (main_loop inputs).
Proof.
  induction inputs as [|i rest IH].
  - apply grows_unmoved. cbn [main_loop]. unfold iteration. unmoved_auto.
  - cbn [main_loop].
    apply (@grows_bind _ _ 2 (2 * List.length rest));
      [apply grows_iteration| |simpl; lia].
    intros [|]; [apply grows_unmoved, unmoved_ret | exact IH].
Qed.

(** X6.  A session that ends normally has recorded at most two half-moves
    for every input it was given: a line adds the user's move and the
    engine's reply at most. *)
Theorem history_length_bound (inputs : list input_event) (e0 : estate)
    (st : state) :
  main inputs (initial e0) = (Ok tt, st) ->
  List.length (moves_history st) <= 2 * List.length inputs.
Proof.
  intros H.
  assert (Hg : grows (2 * List.length inputs) (main inputs)).
  { unfold main.
    repeat (apply (@grows_bind _ _ 0 (2 * List.length inputs));
            [apply grows_unmoved; unmoved_auto|intros _|lia]).
    apply grows_main_loop. }
  apply Hg in H. simpl in H. lia.
Qed.

End Growth.

(** ** A session that does not fail *)

(** An engine that stays with us: the sequences of moves it [accepted]
    can be replayed, the position, legality and search queries always
    answer, rendering and evaluation fail with an [Exception] at worst,
    and a move it has just found correct, or has just proposed, is played
    without error and joins the accepted sequence. *)
Class ReliableEngine {E : Engine} (C : ChessEngine E) : Type := {
  accepted : list string -> Prop;
  accepted_nil : accepted [];
  accepted_removelast : forall h, accepted h -> accepted (removelast h);
  position_answers : forall e, exists s e', get_fen_position e = (Ok s, e');
  legality_answers : forall m e, exists b e', is_move_correct m e = (Ok b, e');
  search_answers : forall e, exists o e', get_best_move e = (Ok o, e');
  visual_fails_softly : forall e x e',
    get_board_visual e = (Raise x, e') -> is_Exception x = true;
  evaluation_fails_softly : forall e x e',
    get_evaluation e = (Raise x, e') -> is_Exception x = true;
  replay_answers : forall h e,
    accepted h -> exists e', set_position h e = (Ok tt, e');
  checked_move_plays : forall h m e e1,
    accepted h -> position_of e = replay h ->
    is_move_correct m e = (Ok true, e1) ->
    (exists e2, make_moves_from_current_position [m] e1 = (Ok tt, e2)) /\
    accepted (h ++ [m]);
  proposed_move_plays : forall h b e e1,
    accepted h -> position_of e = replay h ->
    get_best_move e = (Ok (Some b), e1) ->
    (exists e2, make_moves_from_current_position [b] e1 = (Ok tt, e2)) /\
    accepted (h ++ [b])
}.

Section Reliable.

Context {E : Engine} {C : ChessEngine E} {R : ReliableEngine C}
  {P : Text.PyStr}.

(** History and engine agree and the engine accepts the history. *)
Definition sound (st : state) : Prop :=
  synced st /\ accepted (moves_history st).

(** [safe c]: from a sound state [c] returns, in a sound state. *)
Definition safe {A} (c : M A) : Prop :=
  forall st, sound st -> exists a st', c st = (Ok a, st') /\ sound st'.

Lemma safe_ret {A} (a : A) : safe (ret a).
Proof. intros st Hs. now exists a, st. Qed.

Lemma safe_bind {A B} (c : M A) (k : A -> M B) :
  safe c -> (forall a, safe (k a)) -> safe (bind c k).
Proof.
  intros Hc Hk st Hs. destruct (Hc st Hs) as (a & st1 & Hq & Hs1).
  destruct (Hk a st1 Hs1) as (b & st2 & Hq2 & Hs2).
  exists b, st2. unfold bind. rewrite Hq. now split.
Qed.

Lemma safe_emit (o : output) : safe (emit o).
Proof. intros st Hs. now exists tt, (with_stdout (stdout st ++ [o]) st). Qed.

Lemma sound_same (st st' : state) :
  moves_history st' = moves_history st ->
  position_of (engine st') = position_of (engine st) ->
  sound st -> sound st'.
Proof.
  intros Hh Hp [Hs Ha]. split; [|now rewrite Hh].
  unfold synced in *. now rewrite Hh, Hp.
Qed.

Ltac same_position :=
  simpl;
  repeat match goal with
         | H : ?q ?e = (_, ?e1) |- position_of ?e1 = _ =>
             transitivity (position_of e);
             [ eapply query_position; [|exact H];
               auto using get_board_visual_pos, get_fen_position_pos,
                 get_evaluation_pos, get_best_move_pos, is_move_correct_pos
             | clear H ]
         end;
  try reflexivity.

Lemma safe_show_board : safe show_board.
Proof.
  intros st Hs. unfold show_board. unfold_prog.
  destruct (get_board_visual (engine st)) as [[s|x] e1] eqn:Hv; simpl.
  - eexists _, _. split; [reflexivity|].
    apply sound_same with (st := st); [reflexivity | same_position | exact Hs].
  - rewrite (visual_fails_softly _ Hv).
    destruct (position_answers e1) as (f & e2 & Hf). simpl. rewrite Hf. simpl.
    eexists _, _. split; [reflexivity|].
    apply sound_same with (st := st); [reflexivity | same_position | exact Hs].
Qed.

Lemma safe_evaluation :
  safe (try_except
          (ev <- call get_evaluation ;;
           print ("Evaluation: " ++ repr_evaluation ev)%string)
          (print "Your build does not support evaluation output.")).
Proof.
  intros st Hs. unfold_prog.
  destruct (get_evaluation (engine st)) as [[ev|x] e1] eqn:Hv; simpl.
  - eexists _, _. split; [reflexivity|].
    apply sound_same with (st := st); [reflexivity | same_position | exact Hs].
  - rewrite (evaluation_fails_softly _ Hv).
    eexists _, _. split; [reflexivity|].
    apply sound_same with (st := st); [reflexivity | same_position | exact Hs].
Qed.

Lemma safe_apply_move_uci (m : string) : safe (apply_move_uci m).
Proof.
  intros st Hs. unfold apply_move_uci. unfold_prog.
  destruct (legality_answers m (engine st)) as (b & e1 & Hq). rewrite Hq.
  assert (Hp : position_of e1 = position_of (engine st))
    by (eapply query_position; [apply is_move_correct_pos | exact Hq]).
  destruct b; simpl.
  - destruct Hs as [Hsy Ha].
    edestruct checked_move_plays as ((e2 & Hm) & Ha');
      [exact Ha | exact Hsy | exact Hq |].
    rewrite Hm. simpl. eexists _, _. split; [reflexivity|].
    split; [|exact Ha']. unfold synced in *. simpl.
    rewrite replay_app, (make_moves_plays _ _ Hm), Hp, Hsy. reflexivity.
  - eexists _, _. split; [reflexivity|].
    apply sound_same with (st := st); [reflexivity | exact Hp | exact Hs].
Qed.

Lemma safe_engine_reply : safe (engine_reply None).
Proof.
  intros st Hs. unfold engine_reply, best_query. unfold_prog.
  destruct (search_answers (engine st)) as (o & e1 & Hq). rewrite Hq.
  assert (Hp : position_of e1 = position_of (engine st))
    by (eapply query_position; [apply get_best_move_pos | exact Hq]).
  destruct o as [b|]; simpl.
  - destruct Hs as [Hsy Ha].
    edestruct proposed_move_plays as ((e2 & Hm) & Ha');
      [exact Ha | exact Hsy | exact Hq |].
    rewrite Hm. simpl. eexists _, _. split; [reflexivity|].
    split; [|exact Ha']. unfold synced in *. simpl.
    rewrite replay_app, (make_moves_plays _ _ Hm), Hp, Hsy. reflexivity.
  - eexists _, _. split; [reflexivity|].
    apply sound_same with (st := st); [reflexivity | exact Hp | exact Hs].
Qed.

Lemma sound_replayed (st : state) (h : list string) (e1 : estate) :
  accepted h ->
  set_position h (engine st) = (Ok tt, e1) ->
  sound (with_engine e1 (with_history h st)).
Proof.
  intros Ha Hp. split; [|exact Ha].
  unfold synced. simpl. exact (set_position_replays _ _ Hp).
Qed.

Lemma safe_undo_last_halfmove : safe undo_last_halfmove.
Proof.
  intros st Hs. unfold undo_last_halfmove. unfold_prog.
  destruct (moves_history st) as [|m h] eqn:Hh.
  - now exists false, st.
  - remember (removelast (m :: h)) as h' eqn:Hh'. cbn.
    assert (Ha : accepted h').
    { subst h'. rewrite <- Hh. apply accepted_removelast. apply Hs. }
    edestruct replay_answers as (e1 & Hp); [exact Ha|]. rewrite Hp.
    eexists _, _. split; [reflexivity|].
    now apply sound_replayed.
Qed.

Lemma safe_new_game {A} (k : M A) :
  safe k -> safe (set_history [] ;; call (set_position []) ;; k).
Proof.
  intros Hk st _. unfold_prog. simpl.
  edestruct replay_answers as (e1 & Hp); [exact accepted_nil|]. rewrite Hp.
  apply Hk. apply (sound_replayed (with_history [] st)); [exact accepted_nil|exact Hp].
Qed.

Lemma safe_call {A} (q : estate -> outcome A * estate) :
  (forall e, position_of (snd (q e)) = position_of e) ->
  (forall e, exists a e', q e = (Ok a, e')) ->
  safe (call q).
Proof.
  intros Hq Ht st Hs. unfold call.
  destruct (Ht (engine st)) as (a & e1 & Heq). rewrite Heq.
  eexists _, _. split; [reflexivity|].
  apply sound_same with (st := st); [reflexivity| |exact Hs].
  simpl. eapply query_position; [exact Hq | exact Heq].
Qed.

Ltac safe_auto :=
  unfold print, clear_screen, prompt;
  repeat match goal with
         | |- safe show_board => apply safe_show_board
         | |- safe undo_last_halfmove => apply safe_undo_last_halfmove
         | |- safe (apply_move_uci _) => apply safe_apply_move_uci
         | |- safe (engine_reply None) => apply safe_engine_reply
         | |- safe (ret _) => apply safe_ret
         | |- safe (emit _) => apply safe_emit
         | |- safe (set_history [] ;; call (set_position []) ;; _) =>
             apply safe_new_game
         | |- safe (try_except _ _) => apply safe_evaluation
         | |- safe (call get_fen_position) =>
             apply safe_call; [apply get_fen_position_pos | apply position_answers]
         | |- safe (call get_best_move) =>
             apply safe_call; [apply get_best_move_pos | apply search_answers]
         | |- safe (bind _ _) => apply safe_bind; [|intros ?]
         | |- safe (if ?b then _ else _) => destruct b
         end.

Lemma safe_dispatch (cmd : string) : safe (dispatch cmd).
Proof. unfold dispatch. safe_auto. Qed.

Lemma safe_iteration (i : input_event) : safe (iteration i).
Proof.
  unfold iteration. apply safe_bind; [apply safe_emit|intros _].
  destruct i; [apply safe_dispatch| |]; safe_auto.
Qed.

Lemma safe_main_loop (inputs : list input_event) : safe (main_loop inputs).
Proof.
  induction inputs as [|i rest IH]; cbn [main_loop].
  - apply safe_bind; [apply safe_iteration | intros; apply safe_ret].
  - apply safe_bind; [apply safe_iteration | intros [|]];
      [apply safe_ret | exact IH].
Qed.

(** X7.  Over an engine that stays reliable and starts at the standard
    position, [main] ends normally on every stream of inputs: no command
    makes it fail, and at the end history and engine still agree. *)
Theorem main_never_fails (inputs : list input_event) (e0 : estate) :
  position_of e0 = startpos ->
  exists st,
    main inputs (initial e0) = (Ok tt, st) /\
    position_of (engine st) = replay (moves_history st).
Proof.
  intros H0.
  assert (Hs : sound (initial e0)) by (split; [exact H0 | apply accepted_nil]).
  assert (Hm : safe (main inputs)).
  { unfold main. safe_auto. apply safe_main_loop. }
  destruct (Hm _ Hs) as ([] & st & Heq & Hst & _).
  now exists st.
Qed.

End Reliable.

(** ** Blank lines *)

(** A line whose characters are all white space. *)
Definition blank (s : string) : bool :=
  forallb Text.is_space (Text.chars s).

Section Blank.

Context {E : Engine} {P : Text.PyStr}.

Lemma lstrip_nil (l : list string) :
  Text.lstrip l = [] <-> forallb Text.is_space l = true.
Proof.
  induction l as [|ch l IH]; simpl; [tauto|].
  destruct (Text.is_space ch); simpl; [exact IH|].
  split; discriminate.
Qed.

Lemma rstrip_nil (l : list string) :
  TextFacts.left_clean l -> Text.rstrip l = [] -> l = [].
Proof.
  destruct l as [|ch l]; [reflexivity|]. simpl. intros Hc.
  destruct (Text.rstrip l); [rewrite Hc|]; discriminate.
Qed.

Lemma join_empty (l : list string) :
  TextFacts.well_split l -> Text.join l = EmptyString -> l = [].
Proof.
  destruct l as [|ch l]; [reflexivity|]. intros [Hok _].
  destruct ch; [discriminate Hok | discriminate].
Qed.

Lemma strip_blank (line : string) :
  Text.strip line = EmptyString <-> blank line = true.
Proof.
  unfold blank. rewrite <- lstrip_nil. unfold Text.strip. split.
  - intros H. apply join_empty in H.
    + apply rstrip_nil in H; [exact H | apply TextFacts.lstrip_left_clean].
    + apply TextFacts.well_split_rstrip, TextFacts.well_split_lstrip,
        TextFacts.chars_well_split.
  - now intros ->.
Qed.

Lemma normalize_blank (line : string) :
  Text.normalize line = EmptyString <-> blank line = true.
Proof.
  rewrite <- strip_blank. unfold Text.normalize. split.
  - apply Text.str_lower_empty.
  - intros ->. now rewrite Text.str_lower_ascii.
Qed.

(** X8.  A line normalises to the empty command exactly when all its
    characters are white space (blanks, tabs, no-break spaces and the
    other white space of Unicode).  Such a line is not skipped: the empty
    string goes to the engine as a move, and when the engine finds it
    incorrect the line is answered as invalid input, with history and
    engine otherwise untouched. *)
Theorem blank_line (line : string) (st : state) :
  (Text.normalize line = EmptyString <-> blank line = true)
  /\
  (blank line = true ->
   forall e1,
     is_move_correct "" (engine st) = (Ok false, e1) ->
     iteration (Line line) st =
       (Ok Continue,
        {| engine := e1;
           moves_history := moves_history st;
           stdout := stdout st ++
             [Prompt (nl ++ "Your move/command: ")%string;
              PrintLine "Invalid input. Use UCI (e.g., e2e4) or type 'help' for commands."] |})).
Proof.
  split; [apply normalize_blank|].
  intros Hb e1 Hq. rewrite iteration_line.
  apply normalize_blank in Hb. rewrite Hb.
  change (dispatch "" (prompted st))
    with ((moved <- apply_move_uci "" ;;
           (if moved then
              clear_screen ;; show_board ;;
              mv <- engine_reply None ;;
              if truthy mv then
                print ("Engine replies: " ++ or_default mv "")%string ;; show_board
              else print "Engine has no reply (checkmate or draw?)."
            else
              print "Invalid input. Use UCI (e.g., e2e4) or type 'help' for commands.") ;;
           ret Continue) (prompted st)).
  unfold apply_move_uci. unfold_prog. simpl. rewrite Hq. simpl.
  now rewrite <- app_assoc.
Qed.

End Blank.

(** ** The small engine is reliable while it lives *)

Module ToyFacts.

Lemma alive_forever (c : Toy.config) (e : Toy.session_state) :
  Toy.lifetime c = None -> Toy.alive c e = true.
Proof. unfold Toy.alive. now intros ->. Qed.

Lemma make_moves_accepts (ms p : list string) :
  forallb Toy.legal ms = true ->
  Toy.make_moves ms p = (Ok tt, fold_left Toy.push ms p).
Proof.
  revert p. induction ms as [|m ms IH]; intros p H; simpl in *; [reflexivity|].
  apply andb_prop in H. destruct H as [Hm Hms]. rewrite Hm. now apply IH.
Qed.

Lemma legal_removelast (h : list string) :
  forallb Toy.legal h = true -> forallb Toy.legal (removelast h) = true.
Proof.
  induction h as [|m h IH]; [trivial|]. intros H.
  destruct h as [|m' h]; [reflexivity|].
  change (removelast (m :: m' :: h)) with (m :: removelast (m' :: h)).
  change (forallb Toy.legal (m :: m' :: h))
    with (Toy.legal m && forallb Toy.legal (m' :: h)) in H.
  apply andb_prop in H. destruct H as [Hm Hh].
  change (Toy.legal m && forallb Toy.legal (removelast (m' :: h)) = true).
  rewrite Hm. simpl. now apply IH.
Qed.

Lemma answer_alive {A} (c : Toy.config) (a : A) (e : Toy.session_state) :
  Toy.lifetime c = None ->
  Toy.answer c true a e = (Ok a, Toy.served (Toy.played e) e).
Proof. intros H. unfold Toy.answer. now rewrite alive_forever by exact H. Qed.

Lemma answer_fails_softly {A} (c : Toy.config) (b : bool) (a : A)
    (e e' : Toy.session_state) (x : exn) :
  Toy.answer c b a e = (Raise x, e') -> is_Exception x = true.
Proof.
  unfold Toy.answer. destruct (Toy.alive c e && b); intros H; inversion H.
  reflexivity.
Qed.

Lemma legal_plays (c : Toy.config) (m : string) (e1 : Toy.session_state) :
  Toy.lifetime c = None -> Toy.legal m = true ->
  exists e2, Toy.command c [m] (Toy.played e1) e1 = (Ok tt, e2).
Proof.
  intros H Hm. unfold Toy.command. rewrite alive_forever by exact H. simpl.
  rewrite Hm. now eexists.
Qed.

Definition reliable (c : Toy.config) (H : Toy.lifetime c = None) :
  ReliableEngine (Toy.chess c).
Proof.
  refine {| accepted := fun h => forallb Toy.legal h = true |}.
  - reflexivity.
  - exact legal_removelast.
  - intros e. eexists _, _. simpl. now apply answer_alive.
  - intros m e. eexists _, _. simpl. now apply answer_alive.
  - intros e. eexists _, _. simpl. now apply answer_alive.
  - intros e x e'. simpl. apply answer_fails_softly.
  - intros e x e'. simpl. apply answer_fails_softly.
  - intros h e Hh. simpl. unfold Toy.command.
    rewrite alive_forever by exact H.
    rewrite make_moves_accepts by exact Hh. now eexists.
  - intros h m e e1 Hh _. simpl. rewrite answer_alive by exact H.
    intros Hq. inversion Hq; subst. split.
    + now apply legal_plays.
    + rewrite forallb_app, Hh. simpl. rewrite H1. reflexivity.
  - intros h b e e1 Hh _. simpl. rewrite answer_alive by exact H.
    unfold Toy.search. destruct (List.length (Toy.played e) <? 4)%nat;
      intros Hq; inversion Hq; subst. split.
    + now apply legal_plays.
    + rewrite forallb_app, Hh. reflexivity.
Defined.

End ToyFacts.

(** ** A call that fails *)

Section Failures.

Context {E : Engine}.

(** X9.  What an error leaves behind.  When [apply_move_uci] or
    [engine_reply] ends in an error the history is as it was: a move is
    recorded only after the engine has played it.  When
    [undo_last_halfmove] ends in an error the history was not empty and
    has already lost its last move. *)
Theorem history_after_error (st st' : state) (x : exn) :
  (forall m,
      apply_move_uci m st = (Raise x, st') ->
      moves_history st' = moves_history st)
  /\
  (forall ms,
      engine_reply ms st = (Raise x, st') ->
      moves_history st' = moves_history st)
  /\
  (undo_last_halfmove st = (Raise x, st') ->
   moves_history st <> [] /\
   moves_history st' = removelast (moves_history st)).
Proof.
  split; [|split].
  - intros m. unfold apply_move_uci. unfold_prog.
    destruct (is_move_correct m (engine st)) as [[[|]|y] e1]; simpl;
      try discriminate.
    + destruct (make_moves_from_current_position [m] e1) as [[[]|z] e2];
        simpl; try discriminate.
      intros H. now inversion H.
    + intros H. now inversion H.
  - intros ms. unfold engine_reply. unfold_prog.
    destruct (best_query ms (engine st)) as [[[b|]|y] e1]; simpl;
      try discriminate.
    + destruct (make_moves_from_current_position [b] e1) as [[[]|z] e2];
        simpl; try discriminate.
      intros H. now inversion H.
    + intros H. now inversion H.
  - unfold undo_last_halfmove. unfold_prog.
    destruct (moves_history st) as [|m h] eqn:Hh; [discriminate|].
    remember (removelast (m :: h)) as h' eqn:Hh'. cbn.
    destruct (set_position h' (engine st)) as [[[]|y] e1]; try discriminate.
    intros H. inversion H; subst. split; [discriminate | reflexivity].
Qed.

End Failures.

(** ** The same on the small engine *)

Module Sessions.

Lemma looking_commands_witness :
  moves_history (snd (@dispatch (Toy.session Toy.full) "hint" Toy.two_moves))
    = ["e2e4"; "e7e5"]%string /\
  @position_of _ (Toy.chess Toy.full)
    (engine (snd (@dispatch (Toy.session Toy.full) "hint" Toy.two_moves)))
    = ["e2e4"; "e7e5"]%string.
Proof.
  apply (@looking_commands_change_nothing (Toy.session Toy.full)
           (Toy.chess Toy.full) "hint"%string Toy.two_moves).
  simpl. tauto.
Defined.

Lemma user_move_witness :
  Continue = Continue /\
  ((exists e1,
       @is_move_correct (Toy.session Toy.full) "d2d4" (engine Toy.two_moves)
       = (Ok false, e1)) /\
   @extended _ (Toy.chess Toy.full) [] Toy.two_moves
     (snd (@dispatch (Toy.session Toy.full) "d2d4" Toy.two_moves)) /\
   stdout (snd (@dispatch (Toy.session Toy.full) "d2d4" Toy.two_moves)) =
     stdout Toy.two_moves ++
     [PrintLine "Invalid input. Use UCI (e.g., e2e4) or type 'help' for commands."]
   \/
   (exists e1,
       @is_move_correct (Toy.session Toy.full) "d2d4" (engine Toy.two_moves)
       = (Ok true, e1)) /\
   exists reply,
     List.length reply <= 1 /\
     @extended _ (Toy.chess Toy.full) ("d2d4"%string :: reply) Toy.two_moves
       (snd (@dispatch (Toy.session Toy.full) "d2d4" Toy.two_moves))).
Proof.
  apply (@user_move_effect (Toy.session Toy.full) (Toy.chess Toy.full)
           "d2d4"%string Toy.two_moves).
  - unfold keywords. simpl. intuition discriminate.
  - vm_compute. reflexivity.
Defined.

Lemma go_witness :
  Continue = Continue /\
  exists o e1,
    @get_best_move (Toy.session Toy.full) (engine Toy.two_moves) = (Ok o, e1) /\
    @extended _ (Toy.chess Toy.full)
      (match o with Some b => [b] | None => [] end) Toy.two_moves
      (snd (@dispatch (Toy.session Toy.full) "go" Toy.two_moves)) /\
    (o = None ->
     stdout (snd (@dispatch (Toy.session Toy.full) "go" Toy.two_moves)) =
       stdout Toy.two_moves ++
       [ClearScreen; PrintLine "Engine has no move (game over?)."]).
Proof.
  apply (@go_effect (Toy.session Toy.full) (Toy.chess Toy.full) Toy.two_moves).
  vm_compute. reflexivity.
Defined.

Lemma undo_command_witness :
  moves_history (snd (@dispatch (Toy.session Toy.full) "undo" Toy.two_moves))
    = ["e2e4"]%string /\
  @position_of _ (Toy.chess Toy.full)
    (engine (snd (@dispatch (Toy.session Toy.full) "undo" Toy.two_moves)))
    = replay (moves_history
                (snd (@dispatch (Toy.session Toy.full) "undo" Toy.two_moves))).
Proof.
  destruct (@undo_command_effect (Toy.session Toy.full) (Toy.chess Toy.full)
              Toy.two_moves
              (snd (@dispatch (Toy.session Toy.full) "undo" Toy.two_moves))
              Continue) as (_ & _ & H).
  - vm_compute. reflexivity.
  - apply H. discriminate.
Defined.

Lemma move_then_undo_witness :
  let st1 := snd (@apply_move_uci (Toy.session Toy.full) "e2e4" (Toy.start Toy.full)) in
  let st2 := snd (@undo_last_halfmove (Toy.session Toy.full) st1) in
  moves_history st2 = [] /\
  (@synced _ (Toy.chess Toy.full) (Toy.start Toy.full) ->
   @position_of _ (Toy.chess Toy.full) (engine st2) = []).
Proof.
  intros st1 st2.
  apply (@move_then_undo (Toy.session Toy.full) (Toy.chess Toy.full)
           (Toy.start Toy.full) st1 st2).
  - left. exists "e2e4"%string. vm_compute. reflexivity.
  - vm_compute. reflexivity.
Defined.

Lemma history_length_witness :
  List.length
    (moves_history (snd (@main (Toy.session Toy.full) TextFacts.ascii_only Toy.game (Toy.start Toy.full))))
  <= 2 * List.length Toy.game.
Proof.
  apply (@history_length_bound (Toy.session Toy.full) (Toy.chess Toy.full) TextFacts.ascii_only
           Toy.game Toy.fresh).
  vm_compute. reflexivity.
Defined.

Lemma main_never_fails_witness :
  exists st,
    @main (Toy.session Toy.bare) TextFacts.ascii_only Toy.game (Toy.start Toy.bare) = (Ok tt, st) /\
    @position_of _ (Toy.chess Toy.bare) (engine st) = replay (moves_history st).
Proof.
  apply (@main_never_fails (Toy.session Toy.bare) (Toy.chess Toy.bare)
           (ToyFacts.reliable Toy.bare eq_refl) TextFacts.ascii_only Toy.game Toy.fresh).
  reflexivity.
Defined.

Lemma blank_line_witness :
  @iteration (Toy.session Toy.full) TextFacts.ascii_only
    (Line (" " ++ Text.bytes [194; 160; 9; 227; 128; 128])%string)
    (Toy.start Toy.full) =
    (Ok Continue,
     {| engine := Toy.at_call 1 [];
        moves_history := [];
        stdout :=
          [Prompt (nl ++ "Your move/command: ")%string;
           PrintLine "Invalid input. Use UCI (e.g., e2e4) or type 'help' for commands."] |}).
Proof.
  destruct (@blank_line (Toy.session Toy.full) TextFacts.ascii_only
              (" " ++ Text.bytes [194; 160; 9; 227; 128; 128])%string
              (Toy.start Toy.full))
    as [_ H].
  apply H; reflexivity.
Defined.

(** The process dies after one call: the move is found correct and then
    cannot be played. *)
Lemma history_after_error_witness :
  moves_history
    (snd (@apply_move_uci (Toy.session (Toy.dying 1)) "e2e4" (Toy.start (Toy.dying 1))))
  = [].
Proof.
  destruct (@history_after_error (Toy.session (Toy.dying 1))
              (Toy.start (Toy.dying 1))
              (snd (@apply_move_uci (Toy.session (Toy.dying 1)) "e2e4"
                      (Toy.start (Toy.dying 1))))
              StockfishException) as (H & _).
  apply (H "e2e4"%string). vm_compute. reflexivity.
Defined.

End Sessions.
